(** * tabone/websocket: frame codec, close-error codec, client handshake
      checks and the socket state machine, embedded from the Go sources.

    Conventions of the embedding.
    - A Go [byte] is a [Z]; every place where the source relies on the
      8-bit wrap-around writes it out with [wrap8].  A [uint64] is a [Z]
      wrapped with [wrap64].  An [int] is a [Z].
    - A [[]byte] is a [list Z] in the pure model; the encoder is modelled a
      second time over an explicit store of backing arrays ([Module Mem])
      where the in-place writes of [mask] are visible.
    - A Go [(value, error)] result is a [result]; [error] values are the
      inductive [error].
    - [bufio.Reader] and the transport below it belong to the Go standard
      library; [Module Bufio] models the part of their behaviour that
      [readFromBuffer] observes. *)

From Stdlib Require Import ZArith List Bool Lia String Ascii Arith DecimalString.
Import ListNotations.

Local Open Scope string_scope.
Local Open Scope list_scope.
Local Open Scope Z_scope.

(** ** Machine integers *)

(** A Go [byte]: a [Z] kept within 0..255 by [wrap8] where it is computed. *)
Abbreviation byte := Z (only parsing).

Definition wrap8 (x : Z) : Z := x mod 256.
Definition wrap16 (x : Z) : Z := x mod 65536.
Definition wrap64 (x : Z) : Z := x mod 18446744073709551616.

Definition len {A} (l : list A) : Z := Z.of_nat (List.length l).

(** [[]byte(s)] for a Go string holding ASCII text. *)
Fixpoint bytes_of_string (s : string) : list byte :=
  match s with
  | EmptyString => []
  | String c s' => Z.of_nat (nat_of_ascii c) :: bytes_of_string s'
  end.

(** [string(b)] for bytes below 256. *)
Fixpoint string_of_bytes (b : list byte) : string :=
  match b with
  | [] => EmptyString
  | x :: b' => String (ascii_of_nat (Z.to_nat x)) (string_of_bytes b')
  end.

(** ** Errors (errors.go, socket.go) *)

Record CloseError := mkCloseError { Code : Z; Reason : string }.

Record OpenError := mkOpenError { OReason : string }.

(** The values of Go's [error] interface that the library produces or
    receives from the transport. *)
Inductive error :=
| ECloseError (c : CloseError)
| EOpenError (o : OpenError)
| ErrSocketClosed
| ErrInvalidCode            (* errors.New("invalid error code") *)
| ErrText (s : string)      (* errors.New(s) *)
| EOF                       (* io.EOF *)
| ENetOp (s : string)       (* *net.OpError *)
| EOther (s : string)
| Blocked.

(** [Blocked] is not a Go value.  It stands for a call that does not
    return: a read waiting for bytes on a transport that stays open and
    sends nothing more.  It is passed on like an error, so that nothing
    that follows the call in the source happens in the model. *)

Inductive result (A : Type) :=
| Ok (a : A)
| Err (e : error).
Arguments Ok {A} a.
Arguments Err {A} e.

Definition CloseNormalClosure : Z := 1000.
Definition CloseGoingAway : Z := 1001.
Definition CloseProtocolError : Z := 1002.
Definition CloseUnsupportedData : Z := 1003.
Definition CloseNoStatusReceived : Z := 1005.
Definition CloseAbnormalClosure : Z := 1006.
Definition CloseInvalidFramePayloadData : Z := 1007.
Definition ClosePolicyViolation : Z := 1008.
Definition CloseMessageTooBig : Z := 1009.
Definition CloseMandatoryExtension : Z := 1010.
Definition CloseInternalServerErr : Z := 1011.
Definition CloseTLSHandshake : Z := 1015.

Definition recognizedCodes : list Z :=
  [CloseNormalClosure; CloseGoingAway; CloseProtocolError;
   CloseUnsupportedData; CloseNoStatusReceived; CloseAbnormalClosure;
   CloseInvalidFramePayloadData; ClosePolicyViolation; CloseMessageTooBig;
   CloseMandatoryExtension; CloseInternalServerErr; CloseTLSHandshake].

(** utils.go, [closeErrorExist]: the [switch] over the twelve constants. *)
Definition closeErrorExist (i : Z) : bool :=
  existsb (Z.eqb i) recognizedCodes.

(** [binary.BigEndian.PutUint16(b, v)] on a fresh 2-byte slice. *)
Definition PutUint16 (v : Z) : list byte :=
  [wrap8 (Z.shiftr v 8); wrap8 v].

(** [binary.BigEndian.Uint16(b)]. *)
Definition Uint16 (b : list byte) : Z :=
  Z.lor (Z.shiftl (nth 0%nat b 0) 8) (nth 1%nat b 0).

(** errors.go, [toBytesCode]: [PutUint16(b, uint16(c.Code))]. *)
Definition toBytesCode (c : CloseError) : list byte :=
  PutUint16 (wrap16 (Code c)).

(** The substitute the source builds when the code is not recognised; the
    reason is spelled as the source spells it. *)
Definition noStatus : CloseError :=
  mkCloseError CloseNoStatusReceived "no status recieved".

(** errors.go, [ToBytes].  Go returns the pair [(b, err)]; both components
    are kept.  The recursive call of the source is on [noStatus], whose code
    is recognised, so it is unfolded once. *)
Definition CloseError_ToBytes (c : CloseError) : list byte * option error :=
  if negb (closeErrorExist (Code c)) then
    let n := noStatus in
    let b := toBytesCode n ++ bytes_of_string (Reason n) in
    (b, Some ErrInvalidCode)
  else
    (toBytesCode c ++ bytes_of_string (Reason c), None).

(** errors.go, [NewCloseError]. *)
Definition NewCloseError (b : list byte) : CloseError * option error :=
  let c := if 2 <=? len b then Uint16 (firstn 2 b) else 0 in
  if negb (closeErrorExist c) then (noStatus, Some ErrInvalidCode)
  else (mkCloseError c (string_of_bytes (skipn 2 b)), None).


(** ** The buffered reader (Go's bufio.Reader over a transport) *)

Module Bufio.

(** What the transport will hand to the successive calls of its [Read]:
    a chunk of bytes, or an error.  A chunk larger than the caller's slice
    is delivered in part and the rest stays at the head of the source.
    A peer that closes the connection is the event [Fail EOF].  When the
    list is over the transport stays open and silent: its [Read] blocks. *)
Inductive event :=
| Data (d : list byte)
| Fail (e : error).

Definition source := list event.

(** [rd.Read(p)] with [len(p) = c]: the bytes stored in [p], the error. *)
Definition srcRead (c : nat) (s : source)
  : (list byte * option error) * source :=
  match s with
  | [] => (([], Some Blocked), [])
  | Fail e :: s' => (([], Some e), s')
  | Data d :: s' =>
      if (List.length d <=? c)%nat then ((d, None), s')
      else ((firstn c d, None), Data (skipn c d) :: s')
  end.

(** [buf] is the unread part [b.buf[b.r:b.w]], [size] is [len(b.buf)].
    The sticky error [b.err] is not a field: with this transport an error
    comes with zero bytes and [readErr] hands it out at once. *)
Record Reader := mkReader { buf : list byte; size : nat; rd : source }.

Definition defaultBufSize : nat := 4096.

Definition NewReader (s : source) : Reader := mkReader [] defaultBufSize s.

Definition Buffered (b : Reader) : Z := len (buf b).

(** [b.Read(p)] with [len(p) = k]: the bytes copied to the front of [p],
    the error, the reader afterwards. *)
Definition Read (b : Reader) (k : nat)
  : (list byte * option error) * Reader :=
  match k with
  | O => (([], None), b)
  | S _ =>
      match buf b with
      | [] =>
          if (size b <=? k)%nat then
            (* large read, empty buffer: read directly into p *)
            let '(r, s') := srcRead k (rd b) in
            (r, mkReader [] (size b) s')
          else
            (* one read into the internal buffer, then copy *)
            let '((d, e), s') := srcRead (size b) (rd b) in
            match d with
            | [] => (([], e), mkReader [] (size b) s')
            | _ :: _ => ((firstn k d, None), mkReader (skipn k d) (size b) s')
            end
      | _ :: _ =>
          ((firstn k (buf b), None), mkReader (skipn k (buf b)) (size b) (rd b))
      end
  end.

(** Bytes and events still to come: what a [Read] of a non-empty slice
    that returns without error makes smaller. *)
Fixpoint pending (s : source) : nat :=
  match s with
  | [] => O
  | Data d :: s' => S (List.length d + pending s')
  | Fail _ :: s' => S (pending s')
  end.

Definition measure (b : Reader) : nat := (List.length (buf b) + pending (rd b))%nat.

(** All the bytes the reader will deliver if it is read to the end or to
    the first error. *)
Fixpoint flatten (s : source) : list byte :=
  match s with
  | [] => []
  | Data d :: s' => d ++ flatten s'
  | Fail _ :: _ => []
  end.

Definition contents (b : Reader) : list byte := buf b ++ flatten (rd b).

End Bufio.

Import Bufio.

(** A computation over the reader that may fail. *)
Definition M (A : Type) : Type := Reader -> result A * Reader.

Definition ret {A} (a : A) : M A := fun b => (Ok a, b).
Definition fail {A} (e : error) : M A := fun b => (Err e, b).
Definition bind {A B} (m : M A) (k : A -> M B) : M B :=
  fun b => match m b with
           | (Ok a, b') => k a b'
           | (Err e, b') => (Err e, b')
           end.

Notation "x <- m ;; k" := (bind m (fun x => k))
  (at level 61, m at next level, right associativity).

(** ** utils.go, [readFromBuffer] *)

(** The [for] loop of [readFromBuffer]: [acc] is [p[:n]].  Every turn asks
    the reader for [l] bytes again.  [None] is an exhausted [fuel]. *)
Fixpoint readLoop (fuel : nat) (l : Z) (acc : list byte) (b : Reader)
  : option (result (list byte) * Reader) :=
  match fuel with
  | O => None
  | S fuel' =>
      let '((t, e), b') := Read b (Z.to_nat l) in
      match e with
      | Some e => Some (Err e, b')
      | None =>
          let acc' := acc ++ t in
          if len acc' =? l then Some (Ok acc', b')
          else readLoop fuel' l acc' b'
      end
  end.

(** [readFromBuffer(b, l)].  The loop is run with more fuel than the reader
    has bytes and events left, which is always enough
    ([readLoop_enough_fuel]); the [None] branch is there for totality. *)
Definition readFromBuffer (l : Z) : M (list byte) := fun b =>
  if l <=? Buffered b then
    let '((t, e), b') := Read b (Z.to_nat l) in
    match e with
    | Some e => (Err e, b')
    | None => (Ok (t ++ repeat 0 (Z.to_nat l - List.length t)), b')
    end
  else
    match readLoop (S (measure b)) l [] b with
    | Some r => r
    | None => (Err Blocked, b)
    end.

(** ** frame_utils.go *)

Definition OpcodeContinuation : Z := 0.
Definition OpcodeText : Z := 1.
Definition OpcodeBinary : Z := 2.
Definition OpcodeClose : Z := 8.
Definition OpcodePing : Z := 9.
Definition OpcodePong : Z := 10.

Definition opcodes : list Z :=
  [OpcodeContinuation; OpcodeText; OpcodeBinary; OpcodeClose; OpcodePing;
   OpcodePong].

Definition opcodeExist (i : Z) : bool := existsb (Z.eqb i) opcodes.

Definition validateKey (k : list byte) : bool :=
  (len k =? 0) || (len k =? 4).

Definition maxPayload : Z := 9223372036854775807.

Definition validatePayload (p : list byte) : bool := len p <=? maxPayload.

(** [mask(p, k)]: [for i := range p { p[i] ^= k[i%4] }], from index [i] on.
    Go panics when [k[i%4]] is out of range; the library calls [mask] with a
    4-byte key only ([readPayload] after [readMaskKey], [toBytesPayloadData]
    under [len(f.key) == 4]), and here a missing key byte reads as 0. *)
Fixpoint mask_from (i : nat) (p k : list byte) : list byte :=
  match p with
  | [] => []
  | x :: p' => Z.lxor x (nth (i mod 4) k 0) :: mask_from (S i) p' k
  end.

Definition mask (p k : list byte) : list byte := mask_from 0 p k.

(** ** frame.go *)

Record frame := mkFrame {
  fin : bool;
  opcode : Z;
  masked : bool;
  length : Z;          (* uint64 *)
  key : list byte;
  payload : list byte
}.

(** [&frame{}] *)
Definition emptyFrame : frame := mkFrame false 0 false 0 [] [].

Definition set_fin (v : bool) (f : frame) : frame :=
  mkFrame v (opcode f) (masked f) (length f) (key f) (payload f).
Definition set_opcode (v : Z) (f : frame) : frame :=
  mkFrame (fin f) v (masked f) (length f) (key f) (payload f).
Definition set_masked (v : bool) (f : frame) : frame :=
  mkFrame (fin f) (opcode f) v (length f) (key f) (payload f).
Definition set_length (v : Z) (f : frame) : frame :=
  mkFrame (fin f) (opcode f) (masked f) v (key f) (payload f).
Definition set_key (v : list byte) (f : frame) : frame :=
  mkFrame (fin f) (opcode f) (masked f) (length f) v (payload f).
Definition set_payload (v : list byte) (f : frame) : frame :=
  mkFrame (fin f) (opcode f) (masked f) (length f) (key f) v.

(** [fmt.Sprintf("%d", i)] *)
Definition sprintf_d (i : Z) : string :=
  DecimalString.NilZero.string_of_int (Z.to_int i).

Definition unsupportedOpcode (o : Z) : CloseError :=
  mkCloseError CloseProtocolError ("unsupported opcode: " ++ sprintf_d o)%string.

(** [readInitial]: the first two bytes. *)
Definition readInitial (f : frame) : M frame :=
  p <- readFromBuffer 2 ;;
  let p0 := nth 0%nat p 0 in
  let p1 := nth 1%nat p 0 in
  let f := if Z.shiftr p0 7 =? 1 then set_fin true f else f in
  if negb (Z.land p0 112 =? 0) then
    fail (ECloseError (mkCloseError CloseProtocolError "no support for extensions"))
  else
    let f := set_opcode (Z.land p0 15) f in
    if negb (opcodeExist (opcode f)) then
      fail (ECloseError (unsupportedOpcode (opcode f)))
    else
      let f := if Z.shiftr p1 7 =? 1 then set_masked true f else f in
      ret (set_length (Z.land p1 127) f).

(** The loop of [readLength]: [f.length = f.length << 8; f.length += v] on a
    [uint64]. *)
Definition combine64 (u : list byte) (acc : Z) : Z :=
  fold_left (fun a v => wrap64 (wrap64 (Z.shiftl a 8) + v)) u acc.

(** [readLength]: the extended payload length. *)
Definition readLength (f : frame) : M frame :=
  if length f <=? 125 then ret f
  else
    let l := if length f =? 127 then 8 else 2 in
    u <- readFromBuffer l ;;
    let f := set_length 0 f in
    let f := set_length (combine64 u (length f)) f in
    ret (set_length (Z.land (length f) 9223372036854775807) f).

(** [readMaskKey] *)
Definition readMaskKey (f : frame) : M frame :=
  if negb (masked f) then ret f
  else
    p <- readFromBuffer 4 ;;
    ret (set_key p f).

(** [readPayload]: [mask] works in place on the slice just read. *)
Definition readPayload (f : frame) : M frame :=
  p <- readFromBuffer (length f) ;;
  let p := if masked f then mask p (key f) else p in
  ret (set_payload p f).

(** [newFrame]: the four readers in turn; the first error ends the decode. *)
Definition newFrame : M frame :=
  fold_left (fun (m : M frame) (read : frame -> M frame) => f <- m ;; read f)
            [readInitial; readLength; readMaskKey; readPayload]
            (ret emptyFrame).

(** [validate] *)
Definition validate (f : frame) : option CloseError :=
  if negb (opcodeExist (opcode f)) then
    Some (unsupportedOpcode (opcode f))
  else if negb (validateKey (key f)) then
    Some (mkCloseError CloseProtocolError
            "masking key must either be 0 or 4 bytes long")
  else if negb (validatePayload (payload f)) then
    Some (mkCloseError CloseMessageTooBig "maximum payload data exceeded")
  else None.

(** [p[i] = v] on a local slice. *)
Fixpoint upd (i : nat) (v : byte) (p : list byte) : list byte :=
  match p, i with
  | [], _ => []
  | _ :: p', O => v :: p'
  | x :: p', S i' => x :: upd i' v p'
  end.

Definition toBytesFin (f : frame) (p : list byte) : list byte :=
  if fin f then upd 0 128 p else p.

Definition toBytesOpcode (f : frame) (p : list byte) : list byte :=
  upd 0 (wrap8 (nth 0%nat p 0 + wrap8 (opcode f))) p.

Definition toBytesMasked (f : frame) (p : list byte) : list byte :=
  if negb (len (key f) =? 0) then upd 1 128 p else p.

Definition toBytesPayloadLength (f : frame) (p : list byte) : list byte :=
  let l := len (payload f) in
  if l <=? 125 then upd 1 (wrap8 (nth 1%nat p 0 + wrap8 l)) p
  else if l <=? 65535 then upd 1 (wrap8 (nth 1%nat p 0 + 126)) p
  else if l <=? 9223372036854775807 then upd 1 (wrap8 (nth 1%nat p 0 + 127)) p
  else p.

(** [binary.BigEndian.PutUint64(b, v)] on a fresh 8-byte slice. *)
Definition PutUint64 (v : Z) : list byte :=
  [wrap8 (Z.shiftr v 56); wrap8 (Z.shiftr v 48); wrap8 (Z.shiftr v 40);
   wrap8 (Z.shiftr v 32); wrap8 (Z.shiftr v 24); wrap8 (Z.shiftr v 16);
   wrap8 (Z.shiftr v 8); wrap8 v].

Definition toBytesPayloadLengthExt (f : frame) : list byte :=
  let l := len (payload f) in
  if l <=? 125 then []
  else if l <=? 65535 then PutUint16 (wrap16 l)
  else if l <=? 9223372036854775807 then PutUint64 (wrap64 l)
  else [].

(** [toBytesPayloadData]: the copy [append([]byte{}, f.payload...)] is what
    [mask] writes to; [Mem.toBytesPayloadData] shows the store. *)
Definition toBytesPayloadData (f : frame) : list byte :=
  let p := payload f in
  if len (key f) =? 4 then mask p (key f) else p.

(** [toBytes] *)
Definition toBytes (f : frame) : result (list byte) :=
  match validate f with
  | Some e => Err (ECloseError e)
  | None =>
      let p := [0; 0] in
      let p := toBytesFin f p in
      let p := toBytesOpcode f p in
      let p := toBytesMasked f p in
      let p := toBytesPayloadLength f p in
      let p := p ++ toBytesPayloadLengthExt f in
      let p := p ++ key f in
      let p := p ++ toBytesPayloadData f in
      Ok p
  end.

(** ** The encoder over a store of backing arrays

    A Go slice is a window on a backing array that other slices may share.
    [Mem] keeps the arrays in a store, so that the writes [p[i] ^= k[i%4]]
    of [mask] land in one array and are seen through every slice on it. *)

Module Mem.

Definition store := list (list byte).

(** A slice: backing array, start, length.  A nil slice has length 0. *)
Record slice := mkSlice { arr : nat; off : nat; slen : nat }.

Definition array (h : store) (a : nat) : list byte := nth a h [].

Definition view (h : store) (s : slice) : list byte :=
  firstn (slen s) (skipn (off s) (array h (arr s))).

(** [s[i]] *)
Definition get (h : store) (s : slice) (i : nat) : byte :=
  nth i (view h s) 0.

Fixpoint replace {A} (i : nat) (v : A) (l : list A) : list A :=
  match l, i with
  | [], _ => []
  | _ :: l', O => v :: l'
  | x :: l', S i' => x :: replace i' v l'
  end.

(** [s[i] = v], for [i] below [len(s)]. *)
Definition set (h : store) (s : slice) (i : nat) (v : byte) : store :=
  replace (arr s) (replace (off s + i) v (array h (arr s))) h.

(** A fresh backing array holding [d], and the slice on all of it. *)
Definition alloc (h : store) (d : list byte) : store * slice :=
  (h ++ [d], mkSlice (List.length h) 0 (List.length d)).

(** [for i := range p { p[i] ^= k[i%4] }], in place, [n] turns from [i]. *)
Fixpoint mask_loop (n i : nat) (p k : slice) (h : store) : store :=
  match n with
  | O => h
  | S n' =>
      mask_loop n' (S i) p k
                (set h p i (Z.lxor (get h p i) (get h k (i mod 4))))
  end.

Definition mask (p k : slice) (h : store) : store :=
  mask_loop (slen p) 0 p k h.

(** The frame as the encoder holds it: [key] and [payload] are slices. *)
Record hframe := mkHFrame {
  hfin : bool;
  hopcode : Z;
  hmasked : bool;
  hlength : Z;
  hkey : slice;
  hpayload : slice
}.

(** The frame with its slices read out of the store. *)
Definition load (h : store) (f : hframe) : frame :=
  mkFrame (hfin f) (hopcode f) (hmasked f) (hlength f)
          (view h (hkey f)) (view h (hpayload f)).

(** [append(a, b...)]: modelled as a fresh array with both contents; Go may
    instead extend [a]'s own array, which [toBytes] has allocated itself. *)
Definition append (h : store) (a b : slice) : store * slice :=
  alloc h (view h a ++ view h b).

(** [toBytesPayloadData]: [p := append([]byte{}, f.payload...)], then
    [mask(p, f.key)] when the key has 4 bytes. *)
Definition toBytesPayloadData (f : hframe) (h : store) : store * slice :=
  let '(h1, p) := alloc h (view h (hpayload f)) in
  if (slen (hkey f) =? 4)%nat then (mask p (hkey f) h1, p) else (h1, p).

(** [toBytes]: the header slice [p] is local; its element writes are those
    of the pure [toBytesFin] ... [toBytesPayloadLength]. *)
Definition toBytes (f : hframe) (h : store) : store * result slice :=
  match validate (load h f) with
  | Some e => (h, Err (ECloseError e))
  | None =>
      let hd := toBytesPayloadLength (load h f)
                  (toBytesMasked (load h f)
                     (toBytesOpcode (load h f)
                        (toBytesFin (load h f) [0; 0]))) in
      let '(h, p) := alloc h hd in
      let '(h, ext) := alloc h (toBytesPayloadLengthExt (load h f)) in
      let '(h, p) := append h p ext in
      let '(h, p) := append h p (hkey f) in
      let '(h, d) := toBytesPayloadData f h in
      let '(h, p) := append h p d in
      (h, Ok p)
  end.

(** A slice of the store [h]: nil, or a window inside an array of [h]. *)
Definition wf (h : store) (s : slice) : Prop :=
  slen s = 0%nat \/
  ((arr s < List.length h)%nat /\
   (off s + slen s <= List.length (array h (arr s)))%nat).

(** [h'] has all the arrays of [h], unchanged, and maybe more. *)
Definition extends (h h' : store) : Prop :=
  (List.length h <= List.length h')%nat /\
  forall a, (a < List.length h)%nat -> array h' a = array h a.

End Mem.

(** ** Strings and HTTP headers (Go's strings, net/http) *)

Definition is_upper (c : ascii) : bool :=
  let n := nat_of_ascii c in ((65 <=? n) && (n <=? 90))%nat.
Definition is_lower (c : ascii) : bool :=
  let n := nat_of_ascii c in ((97 <=? n) && (n <=? 122))%nat.
Definition is_digit (c : ascii) : bool :=
  let n := nat_of_ascii c in ((48 <=? n) && (n <=? 57))%nat.

Definition lower (c : ascii) : ascii :=
  if is_upper c then ascii_of_nat (nat_of_ascii c + 32) else c.
Definition upper (c : ascii) : ascii :=
  if is_lower c then ascii_of_nat (nat_of_ascii c - 32) else c.

(** [strings.ToLower] on ASCII text. *)
Fixpoint ToLower (s : string) : string :=
  match s with
  | EmptyString => EmptyString
  | String c s' => String (lower c) (ToLower s')
  end.

(** [http.CanonicalHeaderKey] on a header name made of letters, digits and
    dashes: upper case at the start and after a dash, lower case elsewhere. *)
Fixpoint canonical_from (up : bool) (s : string) : string :=
  match s with
  | EmptyString => EmptyString
  | String c s' =>
      String (if up then upper c else lower c)
             (canonical_from (Ascii.eqb c "-") s')
  end.

Definition CanonicalHeaderKey (s : string) : string := canonical_from true s.

(** [http.Header] holding one value per name, stored under canonical names. *)
Definition Header := list (string * string).

(** [h.Get(k)]: the value stored under the canonical form of [k], or "". *)
Fixpoint lookup (k : string) (h : Header) : string :=
  match h with
  | [] => ""
  | (k', v) :: h' => if String.eqb k k' then v else lookup k h'
  end.

Definition Header_Get (h : Header) (k : string) : string :=
  lookup (CanonicalHeaderKey k) h.

(** [strings.Trim(s, " ")] *)
Fixpoint trim_left (s : string) : string :=
  match s with
  | String c s' => if Ascii.eqb c " " then trim_left s' else s
  | EmptyString => EmptyString
  end.

Fixpoint trim_right (s : string) : string :=
  match s with
  | EmptyString => EmptyString
  | String c s' =>
      match trim_right s' with
      | EmptyString => if Ascii.eqb c " " then EmptyString else String c EmptyString
      | t => String c t
      end
  end.

Definition Trim (s : string) : string := trim_right (trim_left s).

(** [strings.Split(s, ",")]: [cur] is the field being read. *)
Fixpoint split_from (cur : string) (s : string) : list string :=
  match s with
  | EmptyString => [cur]
  | String c s' =>
      if Ascii.eqb c "," then cur :: split_from EmptyString s'
      else split_from (cur ++ String c EmptyString)%string s'
  end.

Definition Split (s : string) : list string := split_from EmptyString s.

(** utils.go, [headerToSlice] *)
Definition headerToSlice (v : string) : list string := map Trim (Split v).

(** utils.go, [stringExists] *)
Fixpoint stringExists_from (i : Z) (l : list string) (k : string) : Z :=
  match l with
  | [] => -1
  | v :: l' => if String.eqb k v then i else stringExists_from (i + 1) l' k
  end.

Definition stringExists (l : list string) (k : string) : Z :=
  stringExists_from 0 l k.

(** ** dialer_utils.go: the checks on the server's handshake response *)



Definition wsAcceptSalt : string := "258EAFA5-E914-47DA-95CA-C5AB0DC85B11".

Section Handshake.

(** [base64.StdEncoding.EncodeToString] of the SHA-1 of a string, from
    Go's crypto/sha1 and encoding/base64. *)
Variable sha1_base64 : string -> string.

(** utils.go, [makeAcceptKey] *)
Definition makeAcceptKey (k : string) : string :=
  sha1_base64 (k ++ wsAcceptSalt)%string.










End Handshake.

(** ** dialer_utils.go: the URL *)

Record URL := mkURL { Scheme : string; Host : string }.

Definition schemeValid (s : string) : bool :=
  String.eqb s "ws" || String.eqb s "wss".

Definition starts_with_digit (s : string) : bool :=
  match s with
  | String c _ => is_digit c
  | EmptyString => false
  end.

(** Whether the regular expression [:(\d+)] matches somewhere in [s]: a
    colon with a digit right after it. *)
Fixpoint portRegexpMatches (s : string) : bool :=
  match s with
  | EmptyString => false
  | String c s' =>
      (Ascii.eqb c ":" && starts_with_digit s') || portRegexpMatches s'
  end.

(** [parseURLHost]: the URL is updated in place; the result is the error
    or the URL afterwards. *)
Definition parseURLHost (u : URL) : result URL :=
  if negb (schemeValid (Scheme u)) then
    Err (ErrText ("invalid scheme: " ++ Scheme u)%string)
  else if portRegexpMatches (Host u) then Ok u
  else if String.eqb (Scheme u) "ws" then
    Ok (mkURL (Scheme u) (Host u ++ ":22")%string)
  else if String.eqb (Scheme u) "wss" then
    Ok (mkURL (Scheme u) (Host u ++ ":443")%string)
  else Ok u.

(** The specification's words, a host with a :PORT suffix: the host ends
    with a colon followed by one or more digits. *)
Fixpoint all_digits (s : string) : bool :=
  match s with
  | EmptyString => true
  | String c s' => is_digit c && all_digits s'
  end.

Fixpoint hasPortSuffix (s : string) : bool :=
  match s with
  | EmptyString => false
  | String c s' =>
      (Ascii.eqb c ":" && starts_with_digit s' && all_digits s')
      || hasPortSuffix s'
  end.

(** The longest prefix of letters, and what follows it. *)
Fixpoint span_letters (s : string) : string * string :=
  match s with
  | EmptyString => (EmptyString, EmptyString)
  | String c s' =>
      if is_upper c || is_lower c then
        let '(a, r) := span_letters s' in (String c a, r)
      else (EmptyString, s)
  end.

(** The submatch of [^([a-zA-Z]+)://] in [u], if the expression matches. *)
Definition schemeSubmatch (u : string) : option string :=
  let '(a, r) := span_letters u in
  match a with
  | EmptyString => None
  | _ => if String.prefix "://" r then Some a else None
  end.

(** [parseURLScheme]: the string is updated through the pointer; the result
    is the error or the string afterwards. *)
Definition parseURLScheme (u : string) : result string :=
  match schemeSubmatch u with
  | None => Ok ("ws://" ++ u)%string
  | Some m =>
      if negb (schemeValid m) then Err (ErrText ("invalid scheme: " ++ m)%string)
      else Ok u
  end.

Section ParseURL.

(** Go's [url.Parse], restricted to the two fields the library reads. *)
Variable url_Parse : string -> result URL.

Definition parseURL (u : string) : result URL :=
  match parseURLScheme u with
  | Err e => Err e
  | Ok u' =>
      match url_Parse u' with
      | Err e => Err e
      | Ok l => parseURLHost l
      end
  end.

End ParseURL.

(** ** socket.go *)

Inductive State := stateOpened | stateClosing | stateClosed.

Definition State_eqb (a b : State) : bool :=
  match a, b with
  | stateOpened, stateOpened | stateClosing, stateClosing
  | stateClosed, stateClosed => true
  | _, _ => false
  end.

(** What the socket does to the world outside it, in order. *)
Inductive effect :=
| BufWrite (b : list byte)          (* s.buf.Write(b) *)
| Flush (r : option error)          (* s.buf.Flush() and its result *)
| ConnClose                         (* s.conn.Close() *)
| Sleep (d : Z)                     (* the ticker of tcpClose *)
| CallReadHandler (o : Z) (p : list byte)
| CallPingHandler (p : list byte)
| CallPongHandler (p : list byte)
| CallCloseHandler (e : option error).

(** The handler fields hold user functions; the model keeps whether each is
    set and records the calls. *)
Record Socket := mkSocket {
  reader : Reader;                  (* s.buf.Reader *)
  server : bool;
  state : State;
  CloseDelay : Z;
  ReadHandler : bool;
  PingHandler : bool;
  PongHandler : bool;
  CloseHandler : bool;
  closeError : option error;
  trace : list effect               (* newest last *)
}.

Definition set_state (v : State) (s : Socket) : Socket :=
  mkSocket (reader s) (server s) v (CloseDelay s) (ReadHandler s)
           (PingHandler s) (PongHandler s) (CloseHandler s) (closeError s)
           (trace s).
Definition set_closeError (v : option error) (s : Socket) : Socket :=
  mkSocket (reader s) (server s) (state s) (CloseDelay s) (ReadHandler s)
           (PingHandler s) (PongHandler s) (CloseHandler s) v (trace s).
Definition set_reader (v : Reader) (s : Socket) : Socket :=
  mkSocket v (server s) (state s) (CloseDelay s) (ReadHandler s)
           (PingHandler s) (PongHandler s) (CloseHandler s) (closeError s)
           (trace s).
Definition set_CloseHandler (v : bool) (s : Socket) : Socket :=
  mkSocket (reader s) (server s) (state s) (CloseDelay s) (ReadHandler s)
           (PingHandler s) (PongHandler s) v (closeError s) (trace s).
Definition set_CloseDelay (v : Z) (s : Socket) : Socket :=
  mkSocket (reader s) (server s) (state s) v (ReadHandler s)
           (PingHandler s) (PongHandler s) (CloseHandler s) (closeError s)
           (trace s).
Definition emit (e : effect) (s : Socket) : Socket :=
  mkSocket (reader s) (server s) (state s) (CloseDelay s) (ReadHandler s)
           (PingHandler s) (PongHandler s) (CloseHandler s) (closeError s)
           (trace s ++ [e]).

(** The socket as [Dial] ([srv = false]) and [upgrade] ([srv = true]) build
    it: every other field has Go's zero value. *)
Definition newSocket (srv : bool) (b : Reader) : Socket :=
  mkSocket b srv stateOpened 0 false false false false None [].

(** What one call of [Write] gets from outside: the four bytes of
    [randomByteSlice(1)] and the result of [s.buf.Flush()]. *)
Record wenv := mkWenv {
  rnd : byte * byte * byte * byte;
  flushErr : option error
}.

Definition key_of (w : wenv) : list byte :=
  let '(a, b, c, d) := rnd w in [a; b; c; d].

Definition callCloseHandler (e : option error) (s : Socket) : Socket :=
  if CloseHandler s then emit (CallCloseHandler e) s else s.

Definition callReadHandler (o : Z) (p : list byte) (s : Socket) : Socket :=
  if ReadHandler s then emit (CallReadHandler o p) s else s.

Definition callPongHandler (p : list byte) (s : Socket) : Socket :=
  if PongHandler s then emit (CallPongHandler p) s else s.

(** [TCPClose] *)
Definition TCPClose (s : Socket) : Socket :=
  if State_eqb (state s) stateClosed then s
  else
    let s := set_state stateClosed s in
    let s := emit ConnClose s in
    callCloseHandler (closeError s) s.

(** [tcpClose] *)
Definition tcpClose (s : Socket) : Socket :=
  if State_eqb (state s) stateClosed then s
  else
    let s := if 0 <? CloseDelay s then emit (Sleep (CloseDelay s)) s else s in
    TCPClose s.

(** [Write]: the socket afterwards and the error returned.  The mutex is
    taken and released around the body; calls are modelled one at a time. *)
Definition Write (w : wenv) (o : Z) (p : list byte) (s : Socket)
  : Socket * option error :=
  if State_eqb (state s) stateClosed then (s, Some ErrSocketClosed)
  else
    let f := mkFrame true o false 0 [] p in
    let f := if negb (server s) then set_key (key_of w) f else f in
    match toBytes f with
    | Err e => (s, Some e)
    | Ok b =>
        let s := emit (BufWrite b) s in
        let s := emit (Flush (flushErr w)) s in
        match flushErr w with
        | Some err =>
            let s := set_closeError (Some err) s in
            let s := TCPClose s in
            (s, None)
        | None =>
            let s := if opcode f =? OpcodeClose then set_state stateClosing s
                     else s in
            (s, None)
        end
    end.

(** [CloseWithError]: the error of [ToBytes] and the result of [Write] are
    dropped. *)
Definition CloseWithError (w : wenv) (e : CloseError) (s : Socket) : Socket :=
  let s := set_closeError (Some (ECloseError e)) s in
  let '(b, _) := CloseError_ToBytes e in
  fst (Write w OpcodeClose b s).

(** [Close] *)
Definition Close (w : wenv) (s : Socket) : Socket :=
  CloseWithError w (mkCloseError CloseNormalClosure "normal closure") s.

Definition defaultPingHandler (w : wenv) (p : list byte) (s : Socket) : Socket :=
  fst (Write w OpcodePong p s).

Definition callPingHandler (w : wenv) (p : list byte) (s : Socket) : Socket :=
  if PingHandler s then emit (CallPingHandler p) s
  else defaultPingHandler w p s.

Definition abnormal : CloseError :=
  mkCloseError CloseAbnormalClosure "abnormal closure".

(** The outside of the next [Write]: the head of [ws]. *)
Definition quiet : wenv := mkWenv (0, 0, 0, 0) None.
Definition next_wenv (ws : list wenv) : wenv := hd quiet ws.

(** [read], the loop of [Listen]: [fuel] bounds the number of frames taken,
    [ws] is what the writes made by the loop meet.  A turn that takes a
    frame and goes on to the next one is the only one that uses fuel. *)
Fixpoint read (fuel : nat) (ws : list wenv) (s : Socket) : Socket :=
  match fuel with
  | O => s
  | S fuel' =>
      let '(r, b) := newFrame (reader s) in
      let s := set_reader b s in
      if State_eqb (state s) stateClosed then s
      else
        match r with
        | Err Blocked => s
        | Err (ECloseError c) => CloseWithError (next_wenv ws) c s
        | Err EOF =>
            TCPClose (set_closeError (Some (ECloseError abnormal)) s)
        | Err (ENetOp _) =>
            TCPClose (set_closeError (Some (ECloseError abnormal)) s)
        | Err _ =>
            CloseWithError (next_wenv ws)
              (mkCloseError CloseProtocolError "protocol error") s
        | Ok f =>
            if server s && negb (masked f) then
              CloseWithError (next_wenv ws)
                (mkCloseError CloseProtocolError
                   "expected payload to be masked") s
            else if negb (server s) && masked f then
              CloseWithError (next_wenv ws)
                (mkCloseError CloseProtocolError
                   "expected payload to not be masked") s
            else if (opcode f =? OpcodeText) || (opcode f =? OpcodeBinary) then
              read fuel' ws (callReadHandler (opcode f) (payload f) s)
            else if opcode f =? OpcodePing then
              read fuel' (if PingHandler s then ws else tl ws)
                   (callPingHandler (next_wenv ws) (payload f) s)
            else if opcode f =? OpcodePong then
              read fuel' ws (callPongHandler (payload f) s)
            else if opcode f =? OpcodeClose then
              let '(c, cerr) := NewCloseError (payload f) in
              let s := set_closeError (Some (ECloseError c)) s in
              if State_eqb (state s) stateClosing then tcpClose s
              else
                let s := set_state stateClosing s in
                let b := match cerr with
                         | None => toBytesCode c
                         | Some _ => []
                         end in
                let s := fst (Write (next_wenv ws) OpcodeClose b s) in
                tcpClose s
            else read fuel' ws s
        end
  end.

(** [Listen] *)
Definition Listen (fuel : nat) (ws : list wenv) (s : Socket) : Socket :=
  read fuel ws s.

(** The public operations on a socket, and a user assigning the exported
    fields [CloseHandler] and [CloseDelay]. *)
Inductive op :=
| OpWrite (w : wenv) (o : Z) (p : list byte)
| OpTCPClose
| OpClose (w : wenv)
| OpCloseWithError (w : wenv) (e : CloseError)
| OpListen (fuel : nat) (ws : list wenv)
| OpSetCloseHandler (v : bool)
| OpSetCloseDelay (d : Z).

Definition step (s : Socket) (o : op) : Socket :=
  match o with
  | OpWrite w o p => fst (Write w o p s)
  | OpTCPClose => TCPClose s
  | OpClose w => Close w s
  | OpCloseWithError w e => CloseWithError w e s
  | OpListen fuel ws => Listen fuel ws s
  | OpSetCloseHandler v => set_CloseHandler v s
  | OpSetCloseDelay d => set_CloseDelay d s
  end.

Definition run (ops : list op) (s : Socket) : Socket := fold_left step ops s.

Definition is_close_call (e : effect) : bool :=
  match e with CallCloseHandler _ => true | _ => false end.
Definition is_conn_close (e : effect) : bool :=
  match e with ConnClose => true | _ => false end.

Definition closeHandlerCalls (s : Socket) : nat :=
  List.length (filter is_close_call (trace s)).
Definition connCloses (s : Socket) : nat :=
  List.length (filter is_conn_close (trace s)).

(** ** utils.go, [randomByteSlice] *)

(** [binary.BigEndian.PutUint32(t, v)] on a fresh 4-byte slice. *)
Definition PutUint32 (v : Z) : list byte :=
  [wrap8 (Z.shiftr v 24); wrap8 (Z.shiftr v 16); wrap8 (Z.shiftr v 8); wrap8 v].

(** The loop of [randomByteSlice], from turn [l] on, [n] turns to go;
    [draw l] is the value [rand.Uint32()] returns in turn [l]. *)
Fixpoint randomBytes_from (draw : nat -> Z) (l n : nat) : list byte :=
  match n with
  | O => []
  | S n' => PutUint32 (draw l) ++ randomBytes_from draw (S l) n'
  end.

(** [randomByteSlice(i)]: no turn is taken when [i] is not positive. *)
Definition randomByteSlice (draw : nat -> Z) (i : Z) : list byte :=
  randomBytes_from draw 0 (Z.to_nat i).

(** ** More of Go's strings and net/http *)

(** [s[n:]] *)
Fixpoint skip (n : nat) (s : string) : string :=
  match n, s with
  | O, _ => s
  | S n', String _ s' => skip n' s'
  | S _, EmptyString => EmptyString
  end.

(** [strings.Replace(s, old, "", 1)]: the first occurrence of [old] is
    taken out. *)
Fixpoint removeFirst (old s : string) : string :=
  if String.prefix old s then skip (String.length old) s
  else match s with
       | EmptyString => EmptyString
       | String c s' => String c (removeFirst old s')
       end.

(** [regexp.MustCompile(suf + "$").ReplaceAllString(s, "")] for a literal
    [suf]: a trailing [suf] is taken off. *)
Fixpoint trimSuffix (suf s : string) : string :=
  if String.eqb s suf then EmptyString
  else match s with
       | EmptyString => EmptyString
       | String c s' => String c (trimSuffix suf s')
       end.

(** [strings.Join(l, sep)] *)
Fixpoint Join (l : list string) (sep : string) : string :=
  match l with
  | [] => EmptyString
  | [x] => x
  | x :: l' => (x ++ sep ++ Join l' sep)%string
  end.

(** [h.Set(k, v)]: the value under the canonical form of [k] is replaced,
    or the pair is added. *)
Fixpoint assoc_set (k v : string) (h : Header) : Header :=
  match h with
  | [] => [(k, v)]
  | (k', v') :: h' =>
      if String.eqb k k' then (k, v) :: h' else (k', v') :: assoc_set k v h'
  end.

Definition Header_Set (h : Header) (k v : string) : Header :=
  assoc_set (CanonicalHeaderKey k) v h.

(** The fields of [http.Request] that the server's checks and
    [createRequest] use. *)
Record httpRequest := mkHttpRequest {
  Method : string;
  ProtoMajor : Z;
  ProtoMinor : Z;
  hHeader : Header;
  hHost : string
}.

(** [r.ProtoAtLeast(major, minor)] *)
Definition ProtoAtLeast (r : httpRequest) (major minor : Z) : bool :=
  (major <? ProtoMajor r) ||
  ((ProtoMajor r =? major) && (minor <=? ProtoMinor r)).

(** ** request_utils.go *)

Definition wsVersion : string := "13".

Definition validateRequestVersion (r : httpRequest) : option OpenError :=
  if negb (ProtoAtLeast r 1 1) then
    Some (mkOpenError "HTTP must be v1.1 or higher")
  else None.

Definition validateRequestMethod (r : httpRequest) : option OpenError :=
  if negb (String.eqb (Method r) "GET") then
    Some (mkOpenError "HTTP method must be GET")
  else None.

Definition validateRequestUpgradeHeader (r : httpRequest) : option OpenError :=
  if negb (String.eqb (ToLower (Header_Get (hHeader r) "Upgrade")) "websocket")
  then Some (mkOpenError "Upgrade Header should have the value of websocket")
  else None.

Definition validateRequestConnectionHeader (r : httpRequest)
  : option OpenError :=
  if negb (String.eqb (ToLower (Header_Get (hHeader r) "Connection")) "upgrade")
  then Some (mkOpenError "Connection Header should have the value of upgrade")
  else None.

Definition validateWSVersionHeader (r : httpRequest) : option OpenError :=
  if negb (String.eqb (Header_Get (hHeader r) "Sec-WebSocket-Version") wsVersion)
  then Some (mkOpenError "upgrade required")
  else None.

(** [checkOrigin] *)
Definition checkOrigin (r : httpRequest) : bool :=
  let h := Header_Get (hHeader r) "Origin" in
  let h := if String.prefix "http://" h then removeFirst "http://" h
           else if String.prefix "https://" h then removeFirst "https://" h
           else h in
  String.eqb h "" || String.eqb h (hHost r).

Section Base64.

(** [base64.StdEncoding.DecodeString] ([None] is its error) and
    [base64.StdEncoding.EncodeToString], from Go's encoding/base64. *)
Variable DecodeString : string -> option (list byte).
Variable EncodeToString : list byte -> string.

Definition validateRequestSecWebsocketKeyHeader (r : httpRequest)
  : option OpenError :=
  let h := Header_Get (hHeader r) "Sec-WebSocket-Key" in
  match DecodeString h with
  | None =>
      Some (mkOpenError
              "an error had occured while validating Sec-WebSocket-Key header")
  | Some d =>
      if negb (len d =? 16) then
        Some (mkOpenError
                "Sec-WebSocket-Key must be 16 bytes in length when decoded")
      else None
  end.

Definition requestValidations : list (httpRequest -> option OpenError) :=
  [validateRequestVersion;
   validateRequestMethod;
   validateRequestUpgradeHeader;
   validateRequestConnectionHeader;
   validateRequestSecWebsocketKeyHeader].

Fixpoint first_request_error (vs : list (httpRequest -> option OpenError))
         (r : httpRequest) : option OpenError :=
  match vs with
  | [] => None
  | v :: vs' =>
      match v r with
      | Some err => Some err
      | None => first_request_error vs' r
      end
  end.

(** [validateRequest] *)
Definition validateRequest (r : httpRequest) : option OpenError :=
  first_request_error requestValidations r.

(** dialer_utils.go, [makeChallengeKey] *)
Definition makeChallengeKey (draw : nat -> Z) : string :=
  EncodeToString (randomByteSlice draw 4).

(** dialer.go, [createRequest]: [hdr] and [protos] are the dialer's
    [Header] and [SubProtocols], [l] the parsed URL.  A nil header map is
    the empty one. *)
Definition createRequest (hdr : Header) (protos : list string)
           (draw : nat -> Z) (l : URL) : httpRequest :=
  let t := Host l in
  let t := if String.eqb (Scheme l) "ws" then trimSuffix ":22" t
           else if String.eqb (Scheme l) "wss" then trimSuffix ":443" t
           else t in
  let h := Header_Set hdr "Host" t in
  let h := Header_Set h "Upgrade" "websocket" in
  let h := Header_Set h "Connection" "upgrade" in
  let h := Header_Set h "Sec-WebSocket-Version" "13" in
  let h := Header_Set h "Sec-WebSocket-Key" (makeChallengeKey draw) in
  let h := Header_Set h "Sec-WebSocket-Protocol" (Join protos ", ") in
  mkHttpRequest "GET" 1 1 h (Host l).

End Base64.

(** ** request.go *)

(** The request being upgraded: the user's [CheckOrigin] ([None] is nil)
    and the chosen [SubProtocol]. *)
Record UpgradeRequest := mkUpgradeRequest {
  CheckOrigin : option (httpRequest -> bool);
  SubProtocol : string
}.

(** [handleOrigin] *)
Definition handleOrigin (q : UpgradeRequest) (r : httpRequest)
  : option OpenError :=
  let fn := match CheckOrigin q with
            | Some fn => fn
            | None => checkOrigin
            end in
  if negb (fn r) then Some (mkOpenError "failure due to origin.") else None.

(** [ClientSubProtocols] *)
Definition ClientSubProtocols (r : httpRequest) : list string :=
  headerToSlice (Header_Get (hHeader r) "Sec-WebSocket-Protocol").

(** [ClientExtensions] *)
Definition ClientExtensions (r : httpRequest) : list string :=
  headerToSlice (Header_Get (hHeader r) "Sec-WebSocket-Extensions").

Definition nl : string := String (ascii_of_nat 10) EmptyString.

(** What the response writer can do for [upgrade]: it is no
    [http.Hijacker], [Hijack] fails, or [Hijack] hands over the
    connection and its buffered reader. *)
Inductive hijack :=
| NotHijacker
| HijackError (e : error)
| Hijacked (b : Reader).

(** What [Upgrade] leaves behind: the HTTP error it answered with (status,
    headers set on the response writer) and the error it returns, or the
    text written to the hijacked connection and the socket. *)
Inductive upgraded :=
| Refused (status : Z) (hdr : Header) (e : error)
| Switched (resp : string) (s : Socket).

Section Upgrade.

Variable sha1_base64 : string -> string.
Variable DecodeString : string -> option (list byte).

(** The text [upgrade] writes to the hijacked connection. *)
Definition upgradeResponse (q : UpgradeRequest) (r : httpRequest) : string :=
  let resp := ("HTTP/1.1 101 Switching Protocols" ++ nl)%string in
  let resp := (resp ++ "Upgrade: websocket" ++ nl)%string in
  let resp := (resp ++ "Connection: upgrade" ++ nl)%string in
  let resp := (resp ++ "Sec-WebSocket-Version: " ++ wsVersion ++ nl)%string in
  let resp :=
    if negb (String.eqb (SubProtocol q) "") &&
       negb (stringExists (ClientSubProtocols r) (SubProtocol q) =? -1)
    then (resp ++ "Sec-WebSocket-Protocol: " ++ SubProtocol q ++ nl)%string
    else resp in
  let acceptKey :=
    makeAcceptKey sha1_base64 (Header_Get (hHeader r) "Sec-WebSocket-Key") in
  (resp ++ "Sec-WebSocket-Accept: " ++ acceptKey ++ nl ++ nl)%string.

(** [upgrade] *)
Definition upgrade (q : UpgradeRequest) (r : httpRequest) (w : hijack)
  : result (string * Socket) :=
  match w with
  | NotHijacker =>
      Err (EOpenError (mkOpenError
        "assertion failed with current http.ResponseWriter instance"))
  | HijackError e => Err e
  | Hijacked b => Ok (upgradeResponse q r, newSocket true b)
  end.

(** [Upgrade] *)
Definition Upgrade (q : UpgradeRequest) (r : httpRequest) (w : hijack)
  : upgraded :=
  match handleOrigin q r with
  | Some err => Refused 403 [] (EOpenError err)
  | None =>
      match validateWSVersionHeader r with
      | Some err =>
          Refused 426 (Header_Set [] "Sec-WebSocket-Version" wsVersion)
                  (EOpenError err)
      | None =>
          match validateRequest DecodeString r with
          | Some err => Refused 400 [] (EOpenError err)
          | None =>
              match upgrade q r w with
              | Err err => Refused 500 [] err
              | Ok (resp, s) => Switched resp s
              end
          end
      end
  end.

End Upgrade.

(** ** Definitions used to state the properties *)

(** No close effect yet while the socket is not Closed; never more than one
    call of the CloseHandler, never more than one close of the transport. *)
Definition closes_once (st : State) (tr : list effect) : Prop :=
  (st <> stateClosed ->
   filter is_close_call tr = [] /\ filter is_conn_close tr = []) /\
  (List.length (filter is_close_call tr) <= 1)%nat /\
  (List.length (filter is_conn_close tr) <= 1)%nat.

Definition Inv (s : Socket) : Prop := closes_once (state s) (trace s).

(** The frame [Write] builds for opcode [o] and payload [p]. *)
Definition outFrame (w : wenv) (o : Z) (p : list byte) (s : Socket) : frame :=
  mkFrame true o false 0 (if server s then [] else key_of w) p.


Definition is_byte (x : Z) : Prop := 0 <= x < 256.

(** The bytes read as one big-endian number. *)
Definition bigEndian (u : list byte) : Z :=
  fold_left (fun a v => a * 256 + v) u 0.

(** The first byte the encoder writes, and what the decoder reads in it. *)
Definition byte0 (f : frame) : Z :=
  nth 0%nat (toBytesOpcode f (toBytesFin f [0; 0])) 0.

(** The 7-bit marker for a payload of [l] bytes. *)
Definition marker (l : Z) : Z :=
  if l <=? 125 then l else if l <=? 65535 then 126 else 127.

Definition byte1 (f : frame) : Z :=
  nth 1%nat (toBytesPayloadLength f (toBytesMasked f [0; 0])) 0.

(** The reader while a frame that came in one chunk is decoded: the buffer
    holds [pre], the header bytes not yet read, and the first [m] bytes of
    [data]; the transport holds the other bytes of [data], if any. *)
Definition streaming (R : Reader) (pre data : list byte) : Prop :=
  exists m,
    buf R = pre ++ firstn m data /\
    ((rd R = [] /\ (List.length data <= m)%nat) \/
     (rd R = [Data (skipn m data)] /\ (m < List.length data)%nat)).

(** The frame the decoder builds from the encoding of [f]. *)
Definition decoded (f : frame) : frame :=
  mkFrame (fin f) (opcode f) (negb (len (key f) =? 0)) (len (payload f))
          (key f) (payload f).

(** How far a socket is on its way from Opened to Closed. *)
Definition rank (st : State) : nat :=
  match st with
  | stateOpened => 0
  | stateClosing => 1
  | stateClosed => 2
  end.

(** The error the read loop closes with when a frame has the wrong
    masking for the role of the socket. *)
Definition roleError (srv : bool) : CloseError :=
  mkCloseError 1002 (if srv then "expected payload to be masked"
                     else "expected payload to not be masked").

Fixpoint has_comma (s : string) : bool :=
  match s with
  | EmptyString => false
  | String c s' => Ascii.eqb c "," || has_comma s'
  end.

(** A subprotocol name that survives the header: no comma, no space at
    either end. *)
Definition clean (s : string) : Prop := has_comma s = false /\ Trim s = s.

(** * Properties *)

(** ** Close errors *)

Lemma closeErrorExist_spec (i : Z) :
  closeErrorExist i = true <-> In i recognizedCodes.
Proof.
  unfold closeErrorExist. rewrite existsb_exists. split.
  - intros [x [Hin Heq]]. apply Z.eqb_eq in Heq. now subst.
  - intros Hin. exists i. split; [assumption | apply Z.eqb_refl].
Qed.

Lemma noStatus_bytes :
  toBytesCode noStatus ++ bytes_of_string (Reason noStatus) =
  [3; 237] ++ bytes_of_string "no status recieved".
Proof. reflexivity. Qed.

(** With an unrecognised code [ToBytes] returns the bytes of [noStatus]
    and the error. *)
Lemma ToBytes_fallback (c : CloseError) :
  closeErrorExist (Code c) = false ->
  CloseError_ToBytes c =
  (fst (CloseError_ToBytes noStatus), Some ErrInvalidCode).
Proof. intros H. unfold CloseError_ToBytes at 1. now rewrite H. Qed.

(** C2, as amended: for every CloseError whose code is not recognised,
    [ToBytes] returns an error together with the bytes 0x03 0xED followed by
    the bytes of the reason the source uses, "no status recieved". *)
Theorem ToBytes_unrecognized_code (c : CloseError) :
  closeErrorExist (Code c) = false ->
  CloseError_ToBytes c =
  ([3; 237] ++ bytes_of_string "no status recieved", Some ErrInvalidCode)
  /\ fst (CloseError_ToBytes c) = fst (CloseError_ToBytes noStatus).
Proof.
  intros H. rewrite (ToBytes_fallback c H). split; reflexivity.
Qed.

Lemma ToBytes_unrecognized_code_witness :
  closeErrorExist (Code (mkCloseError 0 "woops")) = false /\
  CloseError_ToBytes (mkCloseError 0 "woops") =
  ([3; 237] ++ bytes_of_string "no status recieved", Some ErrInvalidCode).
Proof.
  split; [reflexivity |].
  exact (proj1 (ToBytes_unrecognized_code (mkCloseError 0 "woops") eq_refl)).
Defined.

(** C2, as stated, fails on the test vector of errors_test.go: the bytes
    returned for code 0 spell "recieved", not "received". *)
Lemma ToBytes_unrecognized_code_not_received :
  closeErrorExist (Code (mkCloseError 0 "woops")) = false /\
  fst (CloseError_ToBytes (mkCloseError 0 "woops")) <>
  [3; 237] ++ bytes_of_string "no status received".
Proof.
  split; [reflexivity |].
  vm_compute. intros H. discriminate H.
Qed.

(** ** The socket *)

Lemma State_eqb_eq (a b : State) : State_eqb a b = true <-> a = b.
Proof. destruct a, b; cbn; split; intros H; try reflexivity; discriminate. Qed.

Lemma State_eqb_neq (a b : State) : State_eqb a b = false <-> a <> b.
Proof.
  destruct a, b; cbn; split; intros H; try reflexivity; try discriminate;
    try congruence.
Qed.

Lemma Inv_newSocket srv b : Inv (newSocket srv b).
Proof. repeat split; cbn; lia. Qed.

Lemma Inv_same s s' :
  state s' = state s -> trace s' = trace s -> Inv s -> Inv s'.
Proof. unfold Inv. intros -> ->. trivial. Qed.

Lemma Inv_emit e s :
  is_close_call e = false -> is_conn_close e = false ->
  Inv s -> Inv (emit e s).
Proof.
  unfold Inv, closes_once. cbn. intros H1 H2 (Ha & Hb & Hc).
  rewrite !filter_app. cbn. rewrite H1, H2, !app_nil_r. auto.
Qed.

Lemma Inv_closing s :
  state s <> stateClosed -> Inv s -> Inv (set_state stateClosing s).
Proof.
  unfold Inv, closes_once. cbn. intros Hs (Ha & Hb & Hc).
  repeat split; auto; now apply Ha.
Qed.

Lemma Inv_TCPClose s : Inv s -> Inv (TCPClose s).
Proof.
  unfold TCPClose. destruct (State_eqb (state s) stateClosed) eqn:E; [trivial |].
  apply State_eqb_neq in E. intros (Ha & _ & _). destruct (Ha E) as [H1 H2].
  unfold callCloseHandler, Inv, closes_once. cbn.
  destruct (CloseHandler s); cbn; rewrite !filter_app, ?H1, ?H2; cbn;
    rewrite ?filter_app, ?H1, ?H2; cbn;
    (split; [intros F; now elim F | split; lia]).
Qed.

Lemma Inv_tcpClose s : Inv s -> Inv (tcpClose s).
Proof.
  unfold tcpClose. destruct (State_eqb (state s) stateClosed); [trivial |].
  intros H. apply Inv_TCPClose.
  destruct (0 <? CloseDelay s); [apply Inv_emit |]; auto.
Qed.

Lemma Inv_Write w o p s : Inv s -> Inv (fst (Write w o p s)).
Proof.
  unfold Write. destruct (State_eqb (state s) stateClosed) eqn:E; [trivial |].
  apply State_eqb_neq in E. intros H.
  match goal with |- context [toBytes ?f] => destruct (toBytes f) end;
    [| assumption].
  assert (H2 : Inv (emit (Flush (flushErr w)) (emit (BufWrite a) s)))
    by (do 2 (apply Inv_emit; auto)).
  destruct (flushErr w); cbn [fst].
  - apply Inv_TCPClose. revert H2. now apply Inv_same.
  - match goal with |- context [if ?c then _ else _] => destruct c end;
      [apply Inv_closing |]; auto.
Qed.

Lemma Inv_CloseWithError w e s : Inv s -> Inv (CloseWithError w e s).
Proof.
  intros H. unfold CloseWithError. destruct (CloseError_ToBytes e).
  apply Inv_Write. revert H. now apply Inv_same.
Qed.

Lemma Inv_callPingHandler w p s : Inv s -> Inv (callPingHandler w p s).
Proof.
  unfold callPingHandler, defaultPingHandler. intros H.
  destruct (PingHandler s); [apply Inv_emit | apply Inv_Write]; auto.
Qed.

Lemma Inv_read fuel : forall ws s, Inv s -> Inv (read fuel ws s).
Proof.
  induction fuel as [| fuel IH]; intros ws s H; [exact H |].
  cbn [read]. destruct (newFrame (reader s)) as [r b].
  assert (Hb : Inv (set_reader b s)) by (revert H; now apply Inv_same).
  destruct (State_eqb (state (set_reader b s)) stateClosed) eqn:E; [exact Hb |].
  apply State_eqb_neq in E.
  assert (Hab : forall c, Inv (set_closeError c (set_reader b s)))
    by (intros c; revert Hb; now apply Inv_same).
  destruct r as [f | e].
  - repeat match goal with
           | |- Inv (if ?c then _ else _) => destruct c
           end;
      try (apply Inv_CloseWithError; assumption);
      try (apply IH; first [ assumption
                           | apply Inv_callPingHandler; assumption
                           | unfold callReadHandler, callPongHandler;
                             match goal with
                             | |- Inv (if ?c then _ else _) => destruct c
                             end; [apply Inv_emit |]; auto ]).
    destruct (NewCloseError (payload f)) as [c cerr].
    match goal with
    | |- Inv (if ?c then _ else _) => destruct c eqn:E2
    end.
    + apply Inv_tcpClose, Hab.
    + apply Inv_tcpClose, Inv_Write, Inv_closing; [exact E | apply Hab].
  - destruct e; try (apply Inv_CloseWithError; assumption);
      try exact Hb; apply Inv_TCPClose, Hab.
Qed.

Lemma Inv_step s o : Inv s -> Inv (step s o).
Proof.
  destruct o; cbn [step]; intros H.
  - now apply Inv_Write.
  - now apply Inv_TCPClose.
  - now apply Inv_CloseWithError.
  - now apply Inv_CloseWithError.
  - now apply Inv_read.
  - revert H. now apply Inv_same.
  - revert H. now apply Inv_same.
Qed.

Lemma Inv_run ops : forall s, Inv s -> Inv (run ops s).
Proof.
  induction ops as [| o ops IH]; intros s H; [exact H |].
  cbn. apply IH, Inv_step, H.
Qed.

(** C7: on a socket whose state is Closed, [TCPClose] changes nothing (no
    close of the transport, no call of the CloseHandler); and after any
    sequence of operations on a socket just made by [Dial] or [Upgrade] the
    CloseHandler has been called at most once and the transport closed at
    most once. *)
Theorem TCPClose_closed_noop_and_handler_once :
  (forall s, state s = stateClosed -> TCPClose s = s) /\
  (forall ops srv b,
      (closeHandlerCalls (run ops (newSocket srv b)) <= 1)%nat /\
      (connCloses (run ops (newSocket srv b)) <= 1)%nat /\
      TCPClose (TCPClose (run ops (newSocket srv b))) =
      TCPClose (run ops (newSocket srv b))).
Proof.
  split.
  - intros s H. unfold TCPClose. now rewrite H.
  - intros ops srv b.
    destruct (Inv_run ops (newSocket srv b) (Inv_newSocket srv b))
      as (_ & H1 & H2).
    repeat split; [exact H1 | exact H2 |].
    set (s := run ops (newSocket srv b)).
    unfold TCPClose at 1.
    assert (E : state (TCPClose s) = stateClosed).
    { unfold TCPClose. destruct (State_eqb (state s) stateClosed) eqn:E.
      - now apply State_eqb_eq.
      - unfold callCloseHandler. cbn. now destruct (CloseHandler s). }
    now rewrite E.
Qed.

Lemma TCPClose_closed_noop_and_handler_once_witness :
  let s := set_CloseHandler true (newSocket false (NewReader [])) in
  state (TCPClose s) = stateClosed /\
  TCPClose (TCPClose s) = TCPClose s /\
  closeHandlerCalls (run [OpTCPClose; OpTCPClose] (newSocket true (NewReader [])))
  = 0%nat.
Proof.
  cbn zeta. split; [reflexivity |]. split; [| reflexivity].
  apply (proj1 TCPClose_closed_noop_and_handler_once). reflexivity.
Defined.

Lemma Write_unfold w o p s :
  Write w o p s =
  if State_eqb (state s) stateClosed then (s, Some ErrSocketClosed)
  else
    match toBytes (outFrame w o p s) with
    | Err e => (s, Some e)
    | Ok b =>
        let s1 := emit (Flush (flushErr w)) (emit (BufWrite b) s) in
        match flushErr w with
        | Some err => (TCPClose (set_closeError (Some err) s1), None)
        | None =>
            (if o =? OpcodeClose then set_state stateClosing s1 else s1, None)
        end
    end.
Proof.
  unfold Write, outFrame. destruct (server s); reflexivity.
Qed.

(** C6: when the socket is not Closed, the frame encodes and the flush
    fails with [err], [Write] returns nil; the socket then holds [err] in
    closeError, is Closed, and has closed the transport and called the
    CloseHandler (when one is set) with [err]. *)
Theorem Write_flush_failure w o p s b err :
  state s <> stateClosed ->
  toBytes (outFrame w o p s) = Ok b ->
  flushErr w = Some err ->
  snd (Write w o p s) = None /\
  closeError (fst (Write w o p s)) = Some err /\
  state (fst (Write w o p s)) = stateClosed /\
  trace (fst (Write w o p s)) =
    trace s ++ [BufWrite b; Flush (Some err); ConnClose] ++
    (if CloseHandler s then [CallCloseHandler (Some err)] else []).
Proof.
  intros Hs Hb Hf. rewrite Write_unfold.
  apply State_eqb_neq in Hs. rewrite Hs, Hb, Hf. cbn zeta.
  unfold TCPClose. cbn [state set_closeError emit]. rewrite Hs.
  unfold callCloseHandler. cbn.
  destruct (CloseHandler s); cbn; rewrite <- ?app_assoc; cbn; auto.
Qed.

Lemma Write_flush_failure_witness :
  let w := mkWenv (1, 2, 3, 4) (Some (ENetOp "i/o timeout")) in
  let s := set_CloseHandler true (newSocket true (NewReader [])) in
  snd (Write w OpcodeText [104; 105] s) = None /\
  closeError (fst (Write w OpcodeText [104; 105] s)) =
    Some (ENetOp "i/o timeout") /\
  closeHandlerCalls (fst (Write w OpcodeText [104; 105] s)) = 1%nat.
Proof.
  cbn zeta.
  destruct (Write_flush_failure
              (mkWenv (1, 2, 3, 4) (Some (ENetOp "i/o timeout")))
              OpcodeText [104; 105]
              (set_CloseHandler true (newSocket true (NewReader [])))
              [129; 2; 104; 105] (ENetOp "i/o timeout"))
    as (H1 & H2 & H3 & H4).
  - cbn. discriminate.
  - reflexivity.
  - reflexivity.
  - split; [exact H1 | split; [exact H2 |]].
    unfold closeHandlerCalls. rewrite H4. reflexivity.
Defined.




(** ** The client's checks on the handshake response *)

Section HandshakeFacts.

Variable sha1_base64 : string -> string.



End HandshakeFacts.

(** ** The URL's host *)

Lemma hasPortSuffix_matches (s : string) :
  hasPortSuffix s = true -> portRegexpMatches s = true.
Proof.
  induction s as [| c s IH]; cbn; [discriminate |].
  intros H. apply orb_true_iff in H. apply orb_true_iff.
  destruct H as [H | H]; [left | right; auto].
  apply andb_true_iff in H. destruct H as [H _]. exact H.
Qed.

(** A host that ends with a numeric port is left as it is. *)
Lemma parseURLHost_keeps_port (u : URL) :
  schemeValid (Scheme u) = true -> hasPortSuffix (Host u) = true ->
  parseURLHost u = Ok u.
Proof.
  intros Hs Hp. unfold parseURLHost.
  rewrite Hs, (hasPortSuffix_matches _ Hp). reflexivity.
Qed.

(** A host with no colon followed by a digit gets the default port. *)
Lemma parseURLHost_appends (u : URL) :
  schemeValid (Scheme u) = true -> portRegexpMatches (Host u) = false ->
  parseURLHost u =
  Ok (mkURL (Scheme u)
        (Host u ++ (if String.eqb (Scheme u) "ws" then ":22" else ":443"))%string).
Proof.
  intros Hs Hp. unfold parseURLHost. rewrite Hs, Hp. cbn [negb].
  unfold schemeValid in Hs. destruct (String.eqb (Scheme u) "ws"); [reflexivity |].
  cbn in Hs. rewrite Hs. reflexivity.
Qed.

(** C8, the code at the failing input: the host "[::1]" of the URL
    ws://[::1]/ has no port suffix, yet the expression [:(\d+)] matches its
    ":1" and [parseURLHost] returns the host without a port. *)
Theorem parseURLHost_ipv6_literal :
  hasPortSuffix "[::1]" = false /\
  portRegexpMatches "[::1]" = true /\
  parseURLHost (mkURL "ws" "[::1]") = Ok (mkURL "ws" "[::1]") /\
  parseURL (fun _ => Ok (mkURL "ws" "[::1]")) "ws://[::1]/" =
    Ok (mkURL "ws" "[::1]").
Proof. repeat split. Qed.

(** ** The buffered reader and [readFromBuffer] *)

Lemma len_nonneg {A} (l : list A) : 0 <= len l.
Proof. unfold len. lia. Qed.

Lemma len_app {A} (a b : list A) : len (a ++ b) = len a + len b.
Proof. unfold len. rewrite length_app. lia. Qed.

Lemma srcRead_contents c s d s' :
  srcRead c s = ((d, None), s') -> flatten s = d ++ flatten s'.
Proof.
  unfold srcRead. destruct s as [| [d0 | e] s0]; try discriminate.
  destruct (List.length d0 <=? c)%nat; intros H; inversion H; subst; cbn.
  - reflexivity.
  - now rewrite app_assoc, firstn_skipn.
Qed.

Lemma srcRead_err c s d e s' :
  srcRead c s = ((d, Some e), s') -> d = [].
Proof.
  unfold srcRead. destruct s as [| [d0 | e0] s0].
  - intros H; inversion H; reflexivity.
  - destruct (List.length d0 <=? c)%nat; intros H; inversion H.
  - intros H; inversion H; reflexivity.
Qed.

Lemma srcRead_length c s d e s' :
  srcRead c s = ((d, e), s') -> (List.length d <= c)%nat.
Proof.
  unfold srcRead. destruct s as [| [d0 | e0] s0].
  - intros H; inversion H; cbn; lia.
  - destruct (List.length d0 <=? c)%nat eqn:E; intros H; inversion H; subst.
    + now apply Nat.leb_le in E.
    + rewrite length_firstn. lia.
  - intros H; inversion H; cbn; lia.
Qed.

Lemma srcRead_pending c s d s' :
  (0 < c)%nat -> srcRead c s = ((d, None), s') ->
  (List.length d + pending s' <= pending s)%nat /\
  (pending s' < pending s)%nat.
Proof.
  intros Hc. unfold srcRead. destruct s as [| [d0 | e] s0]; try discriminate.
  destruct (List.length d0 <=? c)%nat eqn:E; intros H; inversion H; subst; cbn.
  - lia.
  - apply Nat.leb_gt in E. rewrite length_firstn, length_skipn. lia.
Qed.

(** A read without error hands out the next bytes of the contents. *)
Lemma Read_contents b k t b' :
  Read b k = ((t, None), b') -> contents b = t ++ contents b'.
Proof.
  unfold Read, contents. destruct k as [| k].
  { intros H; inversion H; reflexivity. }
  destruct (buf b) as [| x bf] eqn:Eb.
  - destruct (size b <=? S k)%nat.
    + destruct (srcRead (S k) (rd b)) as [[d e] s'] eqn:Es.
      intros H; inversion H; subst. cbn. eapply srcRead_contents, Es.
    + destruct (srcRead (size b) (rd b)) as [[d e] s'] eqn:Es.
      destruct d as [| y d].
      * intros H; inversion H; subst. cbn. eapply (srcRead_contents _ _ []), Es.
      * destruct e as [e |]; [apply srcRead_err in Es; discriminate Es |].
        intros H; inversion H; subst. cbn [buf rd app].
        rewrite app_assoc, firstn_skipn.
        apply (srcRead_contents _ _ _ _ Es).
  - intros H; inversion H; subst. cbn [buf rd app].
    now rewrite app_assoc, firstn_skipn.
Qed.

Lemma Read_length b k t e b' :
  Read b k = ((t, e), b') -> (List.length t <= k)%nat.
Proof.
  unfold Read. destruct k as [| k].
  { intros H; injection H as <- _ _; cbn; lia. }
  destruct (buf b) as [| x bf].
  - destruct (size b <=? S k)%nat.
    + destruct (srcRead (S k) (rd b)) as [[d e0] s'] eqn:Es.
      intros H; injection H as <- _ _. eapply srcRead_length, Es.
    + destruct (srcRead (size b) (rd b)) as [[d e0] s'].
      destruct d; intros H; injection H as <- _ _;
        cbn [List.length]; rewrite ?length_firstn; lia.
  - intros H; injection H as <- _ _.
    cbn [List.length]; rewrite ?length_firstn; lia.
Qed.

(** A read into a non-empty slice that returns without error uses up a
    byte or an event. *)
Lemma Read_measure b k t b' :
  (0 < k)%nat -> Read b k = ((t, None), b') -> (measure b' < measure b)%nat.
Proof.
  intros Hk. unfold Read, measure. destruct k as [| k]; [lia |].
  destruct (buf b) as [| x bf] eqn:Eb.
  - destruct (size b <=? S k)%nat eqn:Esz.
    + destruct (srcRead (S k) (rd b)) as [[d e] s'] eqn:Es.
      intros H; inversion H; subst. cbn [buf rd List.length].
      pose proof (srcRead_pending _ _ _ _ Hk Es). lia.
    + apply Nat.leb_gt in Esz.
      assert (Hs : (0 < size b)%nat) by lia.
      destruct (srcRead (size b) (rd b)) as [[d e] s'] eqn:Es.
      destruct d as [| y d].
      * intros H; inversion H; subst. cbn [buf rd List.length].
        pose proof (srcRead_pending _ _ _ _ Hs Es). lia.
      * destruct e as [e |]; [apply srcRead_err in Es; discriminate Es |].
        intros H; inversion H; subst. cbn [buf rd].
        pose proof (srcRead_pending _ _ _ _ Hs Es) as [Hp _].
        rewrite ?length_skipn. cbn [List.length] in *. lia.
  - intros H; inversion H; subst. cbn [buf rd].
    rewrite ?length_skipn. cbn [List.length]. lia.
Qed.

(** The fuel [readFromBuffer] gives its loop is never used up. *)
Lemma readLoop_enough_fuel fuel : forall l acc b,
  0 < l -> (measure b < fuel)%nat -> readLoop fuel l acc b <> None.
Proof.
  induction fuel as [| fuel IH]; intros l acc b Hl Hm; [lia |].
  cbn [readLoop]. destruct (Read b (Z.to_nat l)) as [[t e] b'] eqn:ER.
  destruct e as [e |]; [discriminate |].
  destruct (len (acc ++ t) =? l); [discriminate |].
  apply IH; [assumption |].
  assert (Hk : (0 < Z.to_nat l)%nat) by lia.
  pose proof (Read_measure _ _ _ _ Hk ER). lia.
Qed.

(** More fuel does not change a result. *)
Lemma readLoop_more_fuel fuel : forall fuel' l acc b r,
  readLoop fuel l acc b = Some r -> (fuel <= fuel')%nat ->
  readLoop fuel' l acc b = Some r.
Proof.
  induction fuel as [| fuel IH]; intros fuel' l acc b r H Hle; [discriminate |].
  destruct fuel' as [| fuel']; [lia |]. cbn [readLoop] in *.
  destruct (Read b (Z.to_nat l)) as [[t e] b'].
  destruct e as [e |]; [assumption |].
  destruct (len (acc ++ t) =? l); [assumption |].
  apply IH; [assumption | lia].
Qed.

(** What the loop returns on success: [l] bytes, the next ones of the
    contents after those already in [acc]. *)
Lemma readLoop_ok fuel : forall l acc b u b',
  readLoop fuel l acc b = Some (Ok u, b') ->
  len u = l /\ acc ++ contents b = u ++ contents b'.
Proof.
  induction fuel as [| fuel IH]; intros l acc b u b' H; [discriminate |].
  cbn [readLoop] in H. destruct (Read b (Z.to_nat l)) as [[t e] b1] eqn:ER.
  destruct e as [e |]; [discriminate |].
  pose proof (Read_contents _ _ _ _ ER) as Hc.
  destruct (len (acc ++ t) =? l) eqn:El.
  - inversion H; subst. apply Z.eqb_eq in El. split; [exact El |].
    now rewrite Hc, app_assoc.
  - destruct (IH _ _ _ _ _ H) as [H1 H2]. split; [exact H1 |].
    now rewrite Hc, app_assoc.
Qed.

Lemma firstn_app_exact {A} (u v : list A) : firstn (List.length u) (u ++ v) = u.
Proof.
  rewrite firstn_app, Nat.sub_diag, firstn_all. cbn. apply app_nil_r.
Qed.

(** On success [readFromBuffer] returns exactly [l] bytes, the first [l]
    bytes of what the reader had to deliver, and leaves the rest. *)
Lemma readFromBuffer_ok l b u b' :
  0 <= l -> readFromBuffer l b = (Ok u, b') ->
  len u = l /\ contents b = u ++ contents b' /\
  u = firstn (Z.to_nat l) (contents b).
Proof.
  intros Hl H.
  assert (G : len u = l /\ contents b = u ++ contents b').
  { unfold readFromBuffer in H. destruct (l <=? Buffered b) eqn:E.
    - apply Z.leb_le in E. unfold Buffered, len in E.
      destruct (Read b (Z.to_nat l)) as [[t e] b1] eqn:ER.
      destruct e as [e |]; [discriminate |]. inversion H; subst.
      assert (Ht : List.length t = Z.to_nat l).
      { revert ER. unfold Read. destruct (Z.to_nat l) as [| k] eqn:Ek.
        - intros H0; inversion H0; reflexivity.
        - destruct (buf b) as [| x bf] eqn:Eb; [cbn in E; lia |].
          intros H0; inversion H0; subst.
          cbn [List.length] in *. rewrite ?length_firstn. lia. }
      rewrite Ht, Nat.sub_diag. cbn [repeat]. rewrite app_nil_r.
      split; [unfold len; lia | eapply Read_contents, ER].
    - destruct (readLoop (S (measure b)) l [] b) as [r |] eqn:EL.
      + subst r. apply readLoop_ok in EL. exact EL.
      + exfalso. apply Z.leb_gt in E. pose proof (len_nonneg (buf b)).
        unfold Buffered in E.
        eapply (readLoop_enough_fuel (S (measure b)) l [] b); [lia | lia | exact EL]. }
  destruct G as [G1 G2]. repeat split; try assumption.
  rewrite G2. unfold len in G1. rewrite <- G1, Nat2Z.id.
  symmetry. apply firstn_app_exact.
Qed.

(** When the buffer already holds [l] bytes, one read takes them. *)
Lemma readFromBuffer_buffered l b :
  0 <= l <= Buffered b ->
  readFromBuffer l b =
  (Ok (firstn (Z.to_nat l) (buf b)),
   mkReader (skipn (Z.to_nat l) (buf b)) (size b) (rd b)).
Proof.
  intros [H0 H1]. unfold readFromBuffer.
  destruct (l <=? Buffered b) eqn:E; [| apply Z.leb_gt in E; lia].
  unfold Buffered, len in H1. unfold Read.
  destruct (Z.to_nat l) as [| k] eqn:Ek.
  - cbn. now destruct b.
  - destruct (buf b) as [| x bf] eqn:Eb; [cbn in H1; lia |].
    rewrite length_firstn. cbn [List.length] in *.
    replace (S k - Nat.min (S k) (S (List.length bf)))%nat with 0%nat by lia.
    cbn [repeat]. now rewrite app_nil_r.
Qed.

(** C4, the code at the failing input: the reader holds the bytes 1 2 in
    its buffer and the transport then delivers 3 4 5 6 in one chunk, so six
    bytes are delivered for a request of three.  The loop takes the two
    buffered bytes, asks for three bytes again, gets three, holds five, and
    can no longer meet [n == l]: it reads on, and waits for ever on an open
    transport or returns the error of a closed one.  The same happens to a
    frame whose first byte arrives alone, while the same bytes in one chunk
    decode. *)
Theorem readFromBuffer_overshoot :
  let b := mkReader [1; 2] defaultBufSize [Data [3; 4; 5; 6]] in
  let c := mkReader [1; 2] defaultBufSize [Data [3; 4; 5; 6]; Fail EOF] in
  firstn 3 (contents b) = [1; 2; 3] /\
  readFromBuffer 3 b = (Err Blocked, mkReader [] defaultBufSize []) /\
  readFromBuffer 3 c = (Err EOF, mkReader [] defaultBufSize []) /\
  fst (newFrame (NewReader [Data [129]; Data [2; 104; 105]])) = Err Blocked /\
  fst (newFrame (NewReader [Data [129; 2; 104; 105]])) =
    Ok (mkFrame true OpcodeText false 2 [] [104; 105]).
Proof. cbn zeta. repeat split; vm_compute; reflexivity. Qed.

(** ** Decoding the payload length *)

Lemma pow256_len_cons {A} (x : A) (u : list A) :
  256 ^ len (x :: u) = 256 * 256 ^ len u.
Proof.
  unfold len. cbn [List.length]. rewrite Nat2Z.inj_succ, Z.pow_succ_r by lia.
  reflexivity.
Qed.

Lemma pow256_pos {A} (u : list A) : 0 < 256 ^ len u.
Proof. apply Z.pow_pos_nonneg; [lia | apply len_nonneg]. Qed.

(** While the number fits 64 bits the wrap-around of [uint64] is idle. *)
Lemma combine64_fits (u : list byte) : forall acc,
  Forall is_byte u -> 0 <= acc ->
  (acc + 1) * 256 ^ len u <= 18446744073709551616 ->
  combine64 u acc = fold_left (fun a v => a * 256 + v) u acc.
Proof.
  induction u as [| v u IH]; intros acc Hu Ha Hb; [reflexivity |].
  inversion Hu as [| ? ? Hv Hu']; subst. unfold is_byte in Hv.
  rewrite pow256_len_cons in Hb. pose proof (pow256_pos u) as Hp.
  unfold combine64 in *. cbn [fold_left].
  assert (E : wrap64 (wrap64 (Z.shiftl acc 8) + v) = acc * 256 + v).
  { unfold wrap64. rewrite Z.shiftl_mul_pow2 by lia.
    change (2 ^ 8) with 256.
    assert (acc * 256 + 256 <= 18446744073709551616) by nia.
    rewrite (Z.mod_small (acc * 256)) by lia.
    apply Z.mod_small. lia. }
  rewrite E. apply IH; [assumption | lia | nia].
Qed.

Lemma combine64_bigEndian (u : list byte) :
  Forall is_byte u -> (List.length u <= 8)%nat ->
  combine64 u 0 = bigEndian u.
Proof.
  intros Hu Hl. apply combine64_fits; [assumption | lia |].
  unfold len. change 18446744073709551616 with (256 ^ 8).
  rewrite Z.mul_1_l. apply Z.pow_le_mono_r; lia.
Qed.

Lemma land_63 (x : Z) : Z.land x 9223372036854775807 = x mod 2 ^ 63.
Proof. change 9223372036854775807 with (Z.ones 63). apply Z.land_ones. lia. Qed.

Lemma readLength_unfold (f : frame) (b : Reader) :
  readLength f b =
  if length f <=? 125 then (Ok f, b)
  else
    match readFromBuffer (if length f =? 127 then 8 else 2) b with
    | (Ok u, b') =>
        (Ok (set_length (Z.land (combine64 u 0) 9223372036854775807) f), b')
    | (Err e, b') => (Err e, b')
    end.
Proof.
  unfold readLength. destruct (length f <=? 125); [reflexivity |].
  unfold bind, ret.
  destruct (readFromBuffer (if length f =? 127 then 8 else 2) b) as [[u | e] b'];
    reflexivity.
Qed.

(** The marker [readInitial] leaves in [f.length] is the low 7 bits of the
    second byte. *)
Lemma readInitial_marker (f f' : frame) (b b' : Reader) :
  readInitial f b = (Ok f', b') ->
  exists p, readFromBuffer 2 b = (Ok p, b') /\
            length f' = Z.land (nth 1%nat p 0) 127.
Proof.
  unfold readInitial, bind. destruct (readFromBuffer 2 b) as [[p | e] b1];
    [| discriminate].
  destruct (negb (Z.land (nth 0%nat p 0) 112 =? 0)); [discriminate |].
  match goal with |- context [negb (opcodeExist ?o)] =>
    destruct (negb (opcodeExist o)) end; [discriminate |].
  unfold ret. intros H. inversion H; subst. exists p. split; [reflexivity |].
  destruct (Z.shiftr (nth 1%nat p 0) 7 =? 1); reflexivity.
Qed.

(** C5: a marker of at most 125 is the payload length and no byte is read;
    marker 126 reads 2 more bytes and the length is their big-endian value;
    marker 127 reads 8 more bytes and the length is their big-endian value
    with bit 63 cleared.  With bytes 0xFF the lengths are 65535 and
    2^63-1. *)
Theorem readLength_decodes (f : frame) (b : Reader) :
  (length f <= 125 -> readLength f b = (Ok f, b)) /\
  (length f = 126 -> forall u b',
      readFromBuffer 2 b = (Ok u, b') -> Forall is_byte u ->
      List.length u = 2%nat /\
      readLength f b = (Ok (set_length (bigEndian u) f), b') /\
      bigEndian u = nth 0%nat u 0 * 256 + nth 1%nat u 0) /\
  (length f = 127 -> forall u b',
      readFromBuffer 8 b = (Ok u, b') -> Forall is_byte u ->
      List.length u = 8%nat /\
      readLength f b = (Ok (set_length (bigEndian u mod 2 ^ 63) f), b')) /\
  (forall rest sz src,
      readLength (set_length 126 f) (mkReader (255 :: 255 :: rest) sz src) =
      (Ok (set_length 65535 f), mkReader rest sz src)) /\
  (forall rest sz src,
      readLength (set_length 127 f)
        (mkReader (255 :: 255 :: 255 :: 255 :: 255 :: 255 :: 255 :: 255 :: rest)
                  sz src) =
      (Ok (set_length (2 ^ 63 - 1) f), mkReader rest sz src)).
Proof.
  split; [| split; [| split; [| split]]].
  - intros H. rewrite readLength_unfold.
    destruct (length f <=? 125) eqn:E; [reflexivity |].
    apply Z.leb_gt in E. lia.
  - intros H u b' Hr Hu. rewrite readLength_unfold, H.
    change (126 <=? 125) with false. change (126 =? 127) with false.
    cbn iota. rewrite Hr.
    destruct (readFromBuffer_ok 2 b u b' ltac:(lia) Hr) as (Hl & _ & _).
    assert (Hn : List.length u = 2%nat) by (unfold len in Hl; lia).
    split; [exact Hn |].
    rewrite combine64_bigEndian by (assumption || lia).
    rewrite land_63.
    destruct u as [| x [| y [| z u]]]; try discriminate Hn.
    inversion Hu as [| ? ? Hx Hu1]; subst.
    inversion Hu1 as [| ? ? Hy Hu2]; subst. unfold is_byte in *.
    assert (E : bigEndian [x; y] = x * 256 + y) by (unfold bigEndian; cbn; lia).
    split; [| exact E]. rewrite E, Z.mod_small; [reflexivity |].
    change (2 ^ 63) with 9223372036854775808. lia.
  - intros H u b' Hr Hu. rewrite readLength_unfold, H.
    change (127 <=? 125) with false. change (127 =? 127) with true.
    cbn iota. rewrite Hr.
    destruct (readFromBuffer_ok 8 b u b' ltac:(lia) Hr) as (Hl & _ & _).
    assert (Hn : List.length u = 8%nat) by (unfold len in Hl; lia).
    split; [exact Hn |].
    rewrite combine64_bigEndian by (assumption || lia).
    now rewrite land_63.
  - intros rest sz src. rewrite readLength_unfold. cbn [length set_length].
    change (126 <=? 125) with false. change (126 =? 127) with false.
    cbn iota. rewrite readFromBuffer_buffered.
    + reflexivity.
    + unfold Buffered, len. cbn [buf List.length]. lia.
  - intros rest sz src. rewrite readLength_unfold. cbn [length set_length].
    change (127 <=? 125) with false. change (127 =? 127) with true.
    cbn iota. rewrite readFromBuffer_buffered.
    + reflexivity.
    + unfold Buffered, len. cbn [buf List.length]. lia.
Qed.

Lemma readLength_decodes_witness :
  readLength (set_length 126 emptyFrame) (mkReader [134; 129; 7] 4096 []) =
  (Ok (set_length 34433 emptyFrame), mkReader [7] 4096 []).
Proof.
  destruct (readLength_decodes (set_length 126 emptyFrame)
              (mkReader [134; 129; 7] 4096 [])) as (_ & H & _).
  destruct (H eq_refl [134; 129] (mkReader [7] 4096 []) eq_refl) as (_ & E & _).
  - repeat constructor; unfold is_byte; lia.
  - exact E.
Defined.

(** ** The encoder and the store *)

Lemma mask_from_len p : forall i k,
  List.length (mask_from i p k) = List.length p.
Proof. induction p as [| x p IH]; intros i k; cbn; auto. Qed.

(** Masking twice with the same key gives the bytes back. *)
Lemma mask_from_involutive p : forall i k,
  mask_from i (mask_from i p k) k = p.
Proof.
  induction p as [| x p IH]; intros i k; cbn [mask_from]; [reflexivity |].
  rewrite IH. f_equal.
  rewrite Z.lxor_assoc, Z.lxor_nilpotent. apply Z.lxor_0_r.
Qed.

Lemma mask_involutive p k : mask (mask p k) k = p.
Proof. apply mask_from_involutive. Qed.

Module MemFacts.
Lemma replace_length {A} (l : list A) : forall i v,
  List.length (Mem.replace i v l) = List.length l.
Proof.
  induction l as [| x l IH]; intros [| i] v; cbn; auto.
Qed.

Lemma nth_replace_other {A} (l : list A) : forall i j v d,
  i <> j -> nth j (Mem.replace i v l) d = nth j l d.
Proof.
  induction l as [| x l IH]; intros [| i] [| j] v d H; cbn; auto;
    congruence.
Qed.

Lemma nth_replace_same {A} (l : list A) : forall i v d,
  (i < List.length l)%nat -> nth i (Mem.replace i v l) d = v.
Proof.
  induction l as [| x l IH]; intros [| i] v d H; cbn in *; try lia; auto.
  apply IH. lia.
Qed.

Lemma replace_middle {A} (pre : list A) : forall x v post,
  Mem.replace (List.length pre) v (pre ++ x :: post) = pre ++ v :: post.
Proof.
  induction pre as [| y pre IH]; intros x v post; cbn; [reflexivity |].
  now rewrite IH.
Qed.

Lemma array_alloc_old h d a :
  (a < List.length h)%nat -> Mem.array (fst (Mem.alloc h d)) a = Mem.array h a.
Proof. intros H. unfold Mem.array, Mem.alloc. cbn. now apply app_nth1. Qed.

Lemma view_alloc_new h d : Mem.view (fst (Mem.alloc h d)) (snd (Mem.alloc h d)) = d.
Proof.
  unfold Mem.view, Mem.alloc, Mem.array. cbn.
  rewrite app_nth2, Nat.sub_diag by lia. cbn. apply firstn_all.
Qed.

Lemma alloc_length h d :
  List.length (fst (Mem.alloc h d)) = S (List.length h).
Proof. unfold Mem.alloc. cbn. rewrite length_app. cbn. lia. Qed.

Lemma set_length_store h s i v :
  List.length (Mem.set h s i v) = List.length h.
Proof. unfold Mem.set. apply replace_length. Qed.

Lemma set_other h s i v a :
  a <> Mem.arr s -> Mem.array (Mem.set h s i v) a = Mem.array h a.
Proof. intros H. unfold Mem.set, Mem.array. apply nth_replace_other. congruence. Qed.

Lemma set_same h s i v :
  (Mem.arr s < List.length h)%nat ->
  Mem.array (Mem.set h s i v) (Mem.arr s) = Mem.replace (Mem.off s + i) v (Mem.array h (Mem.arr s)).
Proof. intros H. unfold Mem.set, Mem.array. now apply nth_replace_same. Qed.

(** [mask] writes to the array of [p] and to no other. *)
Lemma mask_loop_frame n : forall i p k h,
  List.length (Mem.mask_loop n i p k h) = List.length h /\
  forall a, a <> Mem.arr p -> Mem.array (Mem.mask_loop n i p k h) a = Mem.array h a.
Proof.
  induction n as [| n IH]; intros i p k h; cbn [Mem.mask_loop]; [auto |].
  destruct (IH (S i) p k
               (Mem.set h p i (Z.lxor (Mem.get h p i) (Mem.get h k (i mod 4)))))
    as [H1 H2].
  split.
  - now rewrite H1, set_length_store.
  - intros a Ha. now rewrite H2, set_other.
Qed.

Lemma view_same_array h h' s :
  Mem.array h' (Mem.arr s) = Mem.array h (Mem.arr s) -> Mem.view h' s = Mem.view h s.
Proof. unfold Mem.view. now intros ->. Qed.

(** On a slice [p] that is all of its array, and a key in another array,
    the loop computes the pure [mask_from] on the part still to do. *)
Lemma mask_loop_pure xs : forall pre post i p k h,
  (Mem.arr p < List.length h)%nat -> Mem.off p = 0%nat ->
  Mem.arr k <> Mem.arr p ->
  Mem.array h (Mem.arr p) = pre ++ xs ++ post ->
  List.length pre = i ->
  Mem.slen p = List.length (pre ++ xs ++ post) ->
  Mem.array (Mem.mask_loop (List.length xs) i p k h) (Mem.arr p) =
  pre ++ mask_from i xs (Mem.view h k) ++ post.
Proof.
  induction xs as [| x xs IH]; intros pre post i p k h Hp Ho Hk Ha Hi Hs;
    cbn [List.length Mem.mask_loop mask_from app]; [exact Ha |].
  set (v := Z.lxor (Mem.get h p i) (Mem.get h k (i mod 4))).
  assert (Hv : v = Z.lxor x (nth (i mod 4) (Mem.view h k) 0)).
  { unfold v, Mem.get. f_equal. unfold Mem.view. rewrite Ho, Ha, Hs. cbn [skipn].
    rewrite firstn_all, app_nth2, Hi, Nat.sub_diag by lia. reflexivity. }
  assert (Ha1 : Mem.array (Mem.set h p i v) (Mem.arr p) = (pre ++ [v]) ++ xs ++ post).
  { rewrite set_same, Ho, Ha by assumption. cbn [Nat.add app].
    rewrite <- Hi, replace_middle, <- app_assoc. reflexivity. }
  rewrite (IH (pre ++ [v]) post (S i) p k (Mem.set h p i v)).
  - rewrite <- app_assoc. cbn [app]. rewrite <- Hv.
    now rewrite (view_same_array h _ k) by (apply set_other; assumption).
  - now rewrite set_length_store.
  - assumption.
  - assumption.
  - exact Ha1.
  - rewrite length_app. cbn. lia.
  - rewrite Hs, !length_app. cbn [List.length]. rewrite ?length_app.
    cbn [List.length]. lia.
Qed.

Lemma view_length h s :
  Mem.wf h s -> List.length (Mem.view h s) = Mem.slen s.
Proof.
  unfold Mem.view. intros [H | [H1 H2]].
  - rewrite H. reflexivity.
  - rewrite length_firstn, length_skipn. lia.
Qed.

Lemma wf_arr_lt h s : Mem.wf h s -> (0 < Mem.slen s)%nat -> (Mem.arr s < List.length h)%nat.
Proof. intros [H | [H _]] H0; [lia | exact H]. Qed.

Lemma extends_refl h : Mem.extends h h.
Proof. split; auto. Qed.

Lemma extends_trans h1 h2 h3 : Mem.extends h1 h2 -> Mem.extends h2 h3 -> Mem.extends h1 h3.
Proof.
  intros [L1 A1] [L2 A2]. split; [lia |].
  intros a Ha. rewrite A2, A1; auto. lia.
Qed.

Lemma extends_alloc h d : Mem.extends h (fst (Mem.alloc h d)).
Proof.
  split; [rewrite alloc_length; lia |].
  intros a Ha. now apply array_alloc_old.
Qed.

Lemma view_extends h h' s : Mem.wf h s -> Mem.extends h h' -> Mem.view h' s = Mem.view h s.
Proof.
  intros [H | [H1 H2]] [_ A].
  - unfold Mem.view. now rewrite H.
  - apply view_same_array. now apply A.
Qed.

Lemma wf_extends h h' s : Mem.wf h s -> Mem.extends h h' -> Mem.wf h' s.
Proof.
  intros [H | [H1 H2]] [L A]; [now left | right].
  split; [lia |]. now rewrite A.
Qed.

Lemma wf_alloc h d : Mem.wf (fst (Mem.alloc h d)) (snd (Mem.alloc h d)).
Proof.
  right. unfold Mem.alloc, Mem.array. cbn. rewrite length_app. cbn.
  split; [lia |]. rewrite app_nth2, Nat.sub_diag by lia. cbn. lia.
Qed.

Lemma load_extends h h' f :
  Mem.wf h (Mem.hkey f) -> Mem.wf h (Mem.hpayload f) -> Mem.extends h h' ->
  Mem.load h' f = Mem.load h f.
Proof.
  intros Hk Hp He. unfold Mem.load.
  now rewrite (view_extends h h' _ Hk He), (view_extends h h' _ Hp He).
Qed.

(** [toBytesPayloadData] leaves every array of the store it was given as
    it was, and returns a slice holding what the pure function computes. *)
Lemma toBytesPayloadData_frame f h :
  Mem.wf h (Mem.hkey f) ->
  Mem.extends h (fst (Mem.toBytesPayloadData f h)) /\
  Mem.wf (fst (Mem.toBytesPayloadData f h)) (snd (Mem.toBytesPayloadData f h)) /\
  Mem.view (fst (Mem.toBytesPayloadData f h))
           (snd (Mem.toBytesPayloadData f h)) =
  toBytesPayloadData (Mem.load h f).
Proof.
  intros Hk. unfold Mem.toBytesPayloadData, toBytesPayloadData.
  cbn [Mem.load key payload].
  set (d := Mem.view h (Mem.hpayload f)).
  pose proof (extends_alloc h d) as He.
  pose proof (wf_alloc h d) as Hw.
  pose proof (view_alloc_new h d) as Hv.
  assert (Hl : len (Mem.view h (Mem.hkey f)) = Z.of_nat (Mem.slen (Mem.hkey f)))
    by (unfold len; now rewrite view_length).
  rewrite Hl.
  destruct (Mem.alloc h d) as [h1 p] eqn:Ea. cbn [fst snd] in *.
  assert (Hp : p = Mem.mkSlice (List.length h) 0 (List.length d))
    by (unfold Mem.alloc in Ea; now inversion Ea).
  assert (Hlt : (Mem.arr p < List.length h1)%nat).
  { unfold Mem.alloc in Ea. inversion Ea; subst. cbn.
    rewrite length_app. cbn. lia. }
  assert (Harr : Mem.array h1 (Mem.arr p) = d).
  { unfold Mem.alloc in Ea. inversion Ea; subst. unfold Mem.array. cbn.
    rewrite app_nth2, Nat.sub_diag by lia. reflexivity. }
  destruct (Mem.slen (Mem.hkey f) =? 4)%nat eqn:E4.
  - apply Nat.eqb_eq in E4. rewrite E4.
    change (Z.of_nat 4 =? 4) with true. cbn iota. cbn [fst snd].
    unfold Mem.mask.
    destruct (mask_loop_frame (Mem.slen p) 0 p (Mem.hkey f) h1) as [M1 M2].
    assert (Hne : Mem.arr (Mem.hkey f) <> Mem.arr p).
    { pose proof (wf_arr_lt _ _ Hk ltac:(lia)). rewrite Hp. cbn. lia. }
    assert (Hold : forall a, (a < List.length h)%nat -> a <> Mem.arr p)
      by (intros a Ha; rewrite Hp; cbn; lia).
    assert (Hsl : Mem.slen p = List.length d) by (rewrite Hp; reflexivity).
    assert (Hm : Mem.array (Mem.mask_loop (List.length d) 0 p (Mem.hkey f) h1)
                   (Mem.arr p) =
                 [] ++ mask_from 0 d (Mem.view h1 (Mem.hkey f)) ++ []).
    { apply mask_loop_pure; try assumption.
      - rewrite Hp; reflexivity.
      - rewrite Harr. cbn. now rewrite app_nil_r.
      - reflexivity.
      - rewrite Hsl. cbn. now rewrite app_nil_r. }
    cbn [app] in Hm. rewrite app_nil_r in Hm.
    rewrite Hsl in *.
    repeat split.
    + rewrite M1. apply He.
    + intros a Ha. rewrite M2 by auto. now apply He.
    + right. rewrite M1. split; [exact Hlt |].
      rewrite Hm, mask_from_len, Hp. cbn. lia.
    + unfold Mem.view. rewrite Hm, Hp. cbn [Mem.off Mem.slen skipn].
      rewrite <- (mask_from_len d 0 (Mem.view h1 (Mem.hkey f))) at 1.
      rewrite firstn_all. unfold mask.
      now rewrite (view_extends h h1 _ Hk He).
  - cbn [fst snd]. apply Nat.eqb_neq in E4.
    destruct (Z.of_nat (Mem.slen (Mem.hkey f)) =? 4) eqn:E;
      [apply Z.eqb_eq in E; lia |].
    repeat split; try apply He; assumption.
Qed.

Lemma alloc_facts h d h1 p :
  Mem.alloc h d = (h1, p) ->
  Mem.extends h h1 /\ Mem.wf h1 p /\ Mem.view h1 p = d.
Proof.
  intros E. pose proof (extends_alloc h d). pose proof (wf_alloc h d).
  pose proof (view_alloc_new h d). rewrite E in *. auto.
Qed.

Lemma toBytesPayloadData_facts f h h1 p :
  Mem.wf h (Mem.hkey f) ->
  Mem.toBytesPayloadData f h = (h1, p) ->
  Mem.extends h h1 /\ Mem.wf h1 p /\ Mem.view h1 p = toBytesPayloadData (Mem.load h f).
Proof.
  intros Hk E. pose proof (toBytesPayloadData_frame f h Hk) as H.
  rewrite E in H. exact H.
Qed.

(** C9: [toBytes] leaves the payload of the frame as it was, and with it
    every array the store held before the call; the bytes it returns are
    those of the pure encoder, masked when the key has 4 bytes. *)
Theorem toBytes_leaves_payload (f : Mem.hframe) (h : Mem.store) :
  Mem.wf h (Mem.hkey f) -> Mem.wf h (Mem.hpayload f) ->
  Mem.view (fst (Mem.toBytes f h)) (Mem.hpayload f) =
    Mem.view h (Mem.hpayload f) /\
  Mem.extends h (fst (Mem.toBytes f h)) /\
  match snd (Mem.toBytes f h) with
  | Ok p => toBytes (Mem.load h f) = Ok (Mem.view (fst (Mem.toBytes f h)) p)
  | Err e => toBytes (Mem.load h f) = Err e
  end.
Proof.
  intros Hk Hp.
  assert (G : Mem.extends h (fst (Mem.toBytes f h)) /\
              match snd (Mem.toBytes f h) with
              | Ok p => toBytes (Mem.load h f) =
                        Ok (Mem.view (fst (Mem.toBytes f h)) p)
              | Err e => toBytes (Mem.load h f) = Err e
              end).
  { unfold Mem.toBytes, toBytes.
    destruct (validate (Mem.load h f)) as [e |];
      [cbn; split; [apply extends_refl | reflexivity] |].
    match goal with |- context [Mem.alloc h ?d] =>
      set (hd := d); destruct (Mem.alloc h hd) as [h1 p1] eqn:E1 end.
    destruct (alloc_facts _ _ _ _ E1) as (X1 & W1 & V1).
    destruct (Mem.alloc h1 (toBytesPayloadLengthExt (Mem.load h1 f)))
      as [h2 ext] eqn:E2.
    destruct (alloc_facts _ _ _ _ E2) as (X2 & W2 & V2).
    unfold Mem.append.
    destruct (Mem.alloc h2 (Mem.view h2 p1 ++ Mem.view h2 ext))
      as [h3 p3] eqn:E3.
    destruct (alloc_facts _ _ _ _ E3) as (X3 & W3 & V3).
    destruct (Mem.alloc h3 (Mem.view h3 p3 ++ Mem.view h3 (Mem.hkey f)))
      as [h4 p4] eqn:E4.
    destruct (alloc_facts _ _ _ _ E4) as (X4 & W4 & V4).
    assert (X03 : Mem.extends h h3)
      by exact (extends_trans _ _ _ X1 (extends_trans _ _ _ X2 X3)).
    assert (X04 : Mem.extends h h4) by exact (extends_trans _ _ _ X03 X4).
    destruct (Mem.toBytesPayloadData f h4) as [h5 d] eqn:E5.
    destruct (toBytesPayloadData_facts _ _ _ _ (wf_extends _ _ _ Hk X04) E5)
      as (X5 & W5 & V5).
    destruct (Mem.alloc h5 (Mem.view h5 p4 ++ Mem.view h5 d))
      as [h6 p6] eqn:E6.
    destruct (alloc_facts _ _ _ _ E6) as (X6 & W6 & V6).
    cbn [fst snd]. split.
    - exact (extends_trans _ _ _ X04 (extends_trans _ _ _ X5 X6)).
    - f_equal. rewrite V6, V5, (view_extends _ _ _ W4 X5), V4, V3.
      rewrite (view_extends _ _ _ W1 X2), V1, V2.
      rewrite (view_extends h h3 (Mem.hkey f) Hk X03).
      rewrite (load_extends h h1 f Hk Hp X1), (load_extends h h4 f Hk Hp X04).
      reflexivity. }
  destruct G as [G1 G2]. split; [| split; assumption].
  now apply view_extends.
Qed.

End MemFacts.

Lemma toBytes_leaves_payload_witness :
  let h := [[1; 2; 3; 4]; [3; 4; 5; 6]] in
  let f := Mem.mkHFrame true 1 false 0 (Mem.mkSlice 0 0 4) (Mem.mkSlice 1 0 4) in
  Mem.view (fst (Mem.toBytes f h)) (Mem.hpayload f) = [3; 4; 5; 6] /\
  match snd (Mem.toBytes f h) with
  | Ok p => Mem.view (fst (Mem.toBytes f h)) p =
            [129; 132; 1; 2; 3; 4; 2; 6; 6; 2]
  | Err _ => False
  end.
Proof.
  cbn zeta. split.
  - refine (proj1 (MemFacts.toBytes_leaves_payload
             (Mem.mkHFrame true 1 false 0 (Mem.mkSlice 0 0 4) (Mem.mkSlice 1 0 4))
             [[1; 2; 3; 4]; [3; 4; 5; 6]] _ _));
      right; cbn; lia.
  - reflexivity.
Defined.

(** ** The round trip of a frame *)

Lemma opcodeExist_cases o :
  opcodeExist o = true ->
  o = 0 \/ o = 1 \/ o = 2 \/ o = 8 \/ o = 9 \/ o = 10.
Proof.
  unfold opcodeExist. rewrite existsb_exists. intros [x [Hin Heq]].
  apply Z.eqb_eq in Heq. subst x. cbn in Hin. intuition.
Qed.

Lemma byte0_decodes f :
  opcodeExist (opcode f) = true ->
  (Z.shiftr (byte0 f) 7 =? 1) = fin f /\
  Z.land (byte0 f) 112 = 0 /\
  Z.land (byte0 f) 15 = opcode f.
Proof.
  intros H. unfold byte0, toBytesOpcode, toBytesFin.
  destruct (opcodeExist_cases _ H) as [E | [E | [E | [E | [E | E]]]]];
    rewrite E; destruct (fin f); repeat split.
Qed.

Lemma shiftr7_land127 k m :
  (k = 0 \/ k = 128) -> 0 <= m <= 127 ->
  Z.shiftr (wrap8 (k + m)) 7 = k / 128 /\ Z.land (wrap8 (k + m)) 127 = m.
Proof.
  intros Hk Hm. unfold wrap8.
  rewrite Z.mod_small by lia.
  rewrite Z.shiftr_div_pow2 by lia.
  change 127 with (Z.ones 7). rewrite Z.land_ones by lia.
  change (2 ^ 7) with 128.
  destruct Hk; subst k.
  - rewrite Z.add_0_l, Z.div_small, Z.mod_small by lia. split; reflexivity.
  - replace (128 + m) with (m + 1 * 128) by lia.
    rewrite Z.div_add, Z.mod_add, Z.div_small, Z.mod_small by lia.
    split; reflexivity.
Qed.

Lemma byte1_decodes f :
  len (payload f) <= maxPayload ->
  (Z.shiftr (byte1 f) 7 =? 1) = negb (len (key f) =? 0) /\
  Z.land (byte1 f) 127 = marker (len (payload f)).
Proof.
  intros H. unfold byte1, toBytesPayloadLength, toBytesMasked, marker.
  pose proof (len_nonneg (payload f)) as H0. unfold maxPayload in H.
  set (l := len (payload f)) in *.
  set (k := if negb (len (key f) =? 0) then 128 else 0).
  assert (Hk : k = 0 \/ k = 128) by (unfold k; destruct (negb _); auto).
  assert (E : nth 1%nat (if negb (len (key f) =? 0) then upd 1 128 [0; 0]
                         else [0; 0]) 0 = k)
    by (unfold k; destruct (negb _); reflexivity).
  assert (Hm : forall m, 0 <= m <= 127 ->
            (Z.shiftr (wrap8 (k + m)) 7 =? 1) = negb (len (key f) =? 0) /\
            Z.land (wrap8 (k + m)) 127 = m).
  { intros m Hm. destruct (shiftr7_land127 k m Hk Hm) as [-> ->].
    split; [| reflexivity]. unfold k. destruct (negb _); reflexivity. }
  assert (U : forall v, nth 1%nat (upd 1 v
              (if negb (len (key f) =? 0) then upd 1 128 [0; 0] else [0; 0])) 0
              = v) by (intros v; destruct (negb _); reflexivity).
  destruct (l <=? 125) eqn:E1.
  - apply Z.leb_le in E1. rewrite U, E.
    replace (wrap8 l) with l by (unfold wrap8; rewrite Z.mod_small; lia).
    apply Hm. lia.
  - destruct (l <=? 65535) eqn:E2.
    + rewrite U, E. apply Hm. lia.
    + destruct (l <=? 9223372036854775807) eqn:E3.
      * rewrite U, E. apply Hm. lia.
      * apply Z.leb_gt in E3. lia.
Qed.

Lemma wrap8_byte x : is_byte (wrap8 x).
Proof. unfold is_byte, wrap8. apply Z.mod_pos_bound. lia. Qed.

Lemma bigEndian_PutUint16 l :
  0 <= l <= 65535 -> bigEndian (PutUint16 (wrap16 l)) = l.
Proof.
  intros H. unfold PutUint16, wrap16, bigEndian, wrap8. cbn [fold_left].
  rewrite (Z.mod_small l 65536) by lia.
  rewrite Z.shiftr_div_pow2 by lia. change (2 ^ 8) with 256.
  Z.to_euclidean_division_equations. lia.
Qed.

Lemma bigEndian_PutUint64 l :
  0 <= l < 18446744073709551616 -> bigEndian (PutUint64 (wrap64 l)) = l.
Proof.
  intros H. unfold PutUint64, wrap64, bigEndian, wrap8. cbn [fold_left].
  rewrite (Z.mod_small l 18446744073709551616) by lia.
  rewrite !Z.shiftr_div_pow2 by lia.
  change (2 ^ 8) with 256. change (2 ^ 16) with (256 * 256).
  change (2 ^ 24) with (256 * 256 * 256).
  change (2 ^ 32) with (256 * 256 * 256 * 256).
  change (2 ^ 40) with (256 * 256 * 256 * 256 * 256).
  change (2 ^ 48) with (256 * 256 * 256 * 256 * 256 * 256).
  change (2 ^ 56) with (256 * 256 * 256 * 256 * 256 * 256 * 256).
  rewrite <- !Z.div_div by lia.
  set (q1 := l / 256). set (q2 := q1 / 256). set (q3 := q2 / 256).
  set (q4 := q3 / 256). set (q5 := q4 / 256). set (q6 := q5 / 256).
  set (q7 := q6 / 256).
  pose proof (Z.div_mod l 256 ltac:(lia)).
  pose proof (Z.div_mod q1 256 ltac:(lia)).
  pose proof (Z.div_mod q2 256 ltac:(lia)).
  pose proof (Z.div_mod q3 256 ltac:(lia)).
  pose proof (Z.div_mod q4 256 ltac:(lia)).
  pose proof (Z.div_mod q5 256 ltac:(lia)).
  pose proof (Z.div_mod q6 256 ltac:(lia)).
  assert (q7 mod 256 = q7).
  { apply Z.mod_small. unfold q7, q6, q5, q4, q3, q2, q1.
    rewrite !Z.div_div by lia. split.
    - apply Z.div_pos; lia.
    - apply Z.div_lt_upper_bound; lia. }
  fold q1 in H0. fold q2 in H1. fold q3 in H2. fold q4 in H3. fold q5 in H4.
  fold q6 in H5. fold q7 in H6.
  lia.
Qed.

(** The last chunk of the transport, read into a slice that can hold it. *)
Lemma Read_last_chunk t sz k :
  t <> [] -> (List.length t <= k)%nat ->
  Read (mkReader [] sz [Data t]) k = ((t, None), mkReader [] sz []).
Proof.
  intros Ht Hk. unfold Read. destruct k as [| k].
  { destruct t; [congruence | cbn in Hk; lia]. }
  cbn [buf size rd]. destruct (sz <=? S k)%nat eqn:E.
  - unfold srcRead. apply Nat.leb_le in Hk. rewrite Hk. reflexivity.
  - apply Nat.leb_gt in E. unfold srcRead.
    assert (E2 : (List.length t <=? sz)%nat = true) by (apply Nat.leb_le; lia).
    rewrite E2. destruct t as [| y t]; [congruence |].
    rewrite firstn_all2, skipn_all2 by assumption. reflexivity.
Qed.

Lemma Read_whole_buffer B sz s k :
  B <> [] -> (List.length B <= k)%nat ->
  Read (mkReader B sz s) k = ((B, None), mkReader [] sz s).
Proof.
  intros HB Hk. unfold Read. destruct k as [| k].
  { destruct B; [congruence | cbn in Hk; lia]. }
  cbn [buf size rd]. destruct B as [| x B]; [congruence |].
  rewrite firstn_all2, skipn_all2 by assumption. reflexivity.
Qed.

(** The buffer holds the start of the bytes asked for and the transport
    has exactly the rest in one chunk: two reads take them. *)
Lemma readFromBuffer_tail B t sz :
  t <> [] ->
  readFromBuffer (len B + len t) (mkReader B sz [Data t]) =
  (Ok (B ++ t), mkReader [] sz []).
Proof.
  intros Ht. unfold readFromBuffer.
  assert (Hlt : (0 < List.length t)%nat)
    by (destruct t; [congruence | cbn; lia]).
  assert (Hk : Z.to_nat (len B + len t) = (List.length B + List.length t)%nat)
    by (unfold len; lia).
  unfold Buffered. cbn [buf].
  destruct (len B + len t <=? len B) eqn:E;
    [apply Z.leb_le in E; unfold len in E; lia |].
  assert (G : readLoop 2 (len B + len t) [] (mkReader B sz [Data t]) =
              Some (Ok (B ++ t), mkReader [] sz [])).
  { cbn [readLoop]. rewrite Hk. destruct B as [| x B].
    - rewrite Read_last_chunk by (assumption || cbn; lia).
      cbn [app]. rewrite Z.eqb_refl. reflexivity.
    - assert (HB : x :: B <> []) by discriminate.
      remember (x :: B) as B' eqn:EB'. clear EB' E.
      rewrite Read_whole_buffer by (assumption || lia).
      cbn [app].
      destruct (len B' =? len B' + len t) eqn:E2;
        [apply Z.eqb_eq in E2; unfold len in E2; lia |].
      rewrite Read_last_chunk by (assumption || lia).
      rewrite len_app, Z.eqb_refl. reflexivity. }
  rewrite (readLoop_more_fuel 2 _ _ _ _ _ G); [reflexivity |].
  unfold measure. cbn [buf rd pending]. lia.
Qed.

Lemma streaming_header x pre data R :
  streaming R (x ++ pre) data ->
  exists R', readFromBuffer (len x) R = (Ok x, R') /\ streaming R' pre data.
Proof.
  intros [m [Hb Hr]].
  exists (mkReader (skipn (Z.to_nat (len x)) (buf R)) (size R) (rd R)).
  assert (Hx : Z.to_nat (len x) = List.length x) by (unfold len; lia).
  split.
  - rewrite readFromBuffer_buffered.
    + rewrite Hx, Hb, <- app_assoc, firstn_app_exact. reflexivity.
    + split; [apply len_nonneg |]. unfold Buffered.
      rewrite Hb, <- app_assoc, len_app. pose proof (len_nonneg (pre ++ firstn m data)). lia.
  - exists m. cbn [buf rd]. split; [| exact Hr].
    rewrite Hx, Hb, <- app_assoc, skipn_app, Nat.sub_diag, skipn_all. reflexivity.
Qed.

Lemma streaming_data data R :
  streaming R [] data ->
  exists R', readFromBuffer (len data) R = (Ok data, R') /\ contents R' = [].
Proof.
  intros [m [Hb Hr]]. cbn [app] in Hb. destruct Hr as [[Hr Hm] | [Hr Hm]].
  - exists (mkReader [] (size R) []). split; [| reflexivity].
    rewrite firstn_all2 in Hb by assumption.
    rewrite readFromBuffer_buffered.
    + unfold len. rewrite Nat2Z.id, Hb, firstn_all, skipn_all, Hr. reflexivity.
    + unfold Buffered. rewrite Hb. split; [apply len_nonneg | lia].
  - exists (mkReader [] (size R) []). split; [| reflexivity].
    destruct R as [B sz s]. cbn [buf rd size] in *. subst B s.
    rewrite <- (firstn_skipn m data) at 1. rewrite len_app.
    rewrite readFromBuffer_tail.
    + now rewrite firstn_skipn.
    + intros E. apply (f_equal (@List.length _)) in E.
      rewrite length_skipn in E. cbn in E. lia.
Qed.

(** The first read of a frame that the transport delivers in one chunk. *)
Lemma streaming_start b0 b1 pre data sz :
  (2 + List.length pre < sz)%nat ->
  exists R',
    readFromBuffer 2 (mkReader [] sz [Data (b0 :: b1 :: pre ++ data)]) =
      (Ok [b0; b1], R') /\
    streaming R' pre data.
Proof.
  intros Hsz. destruct sz as [| [| sz]]; try lia.
  set (bytes := b0 :: b1 :: pre ++ data).
  set (m := (sz - List.length pre)%nat).
  set (s' := if (List.length bytes <=? S (S sz))%nat then []
             else [Data (skipn m data)]).
  exists (mkReader (pre ++ firstn m data) (S (S sz)) s').
  assert (ER : Read (mkReader [] (S (S sz)) [Data bytes]) 2 =
               (([b0; b1], None),
                mkReader (pre ++ firstn m data) (S (S sz)) s')).
  { unfold Read. cbn [buf size rd].
    assert (E : (S (S sz) <=? 2)%nat = false) by (apply Nat.leb_gt; lia).
    destruct (S (S sz) <=? 2)%nat; [discriminate |].
    unfold srcRead, s'.
    assert (F : firstn sz (pre ++ data) = pre ++ firstn m data).
    { rewrite firstn_app, (@firstn_all2 _ sz pre) by lia. reflexivity. }
    destruct (List.length bytes <=? S (S sz))%nat eqn:EN.
    - apply Nat.leb_le in EN. unfold bytes in *. cbn [List.length] in EN.
      rewrite length_app in EN.
      cbn [firstn skipn]. rewrite <- F, firstn_all2; [reflexivity |].
      rewrite length_app. lia.
    - unfold bytes. cbn [firstn skipn]. rewrite F.
      rewrite skipn_app, skipn_all2 by lia. reflexivity. }
  split.
  - unfold readFromBuffer. unfold Buffered. cbn [buf].
    change (2 <=? len []) with false. cbn iota.
    unfold measure. cbn [buf rd pending List.length Nat.add readLoop].
    change (Z.to_nat 2) with 2%nat. rewrite ER. reflexivity.
  - exists m. cbn [buf rd]. split; [reflexivity |]. unfold s'.
    unfold bytes. cbn [List.length]. rewrite length_app.
    destruct (S (S (List.length pre + List.length data)) <=? S (S sz))%nat eqn:EN.
    + left. apply Nat.leb_le in EN. split; [reflexivity | lia].
    + right. apply Nat.leb_gt in EN. split; [reflexivity | lia].
Qed.

Lemma newFrame_unfold b :
  newFrame b =
  match readInitial emptyFrame b with
  | (Ok f1, b1) =>
      match readLength f1 b1 with
      | (Ok f2, b2) =>
          match readMaskKey f2 b2 with
          | (Ok f3, b3) => readPayload f3 b3
          | (Err e, b3) => (Err e, b3)
          end
      | (Err e, b2) => (Err e, b2)
      end
  | (Err e, b1) => (Err e, b1)
  end.
Proof.
  unfold newFrame. cbn [fold_left]. unfold bind at 1 2 3 4. unfold ret at 1.
  destruct (readInitial emptyFrame b) as [[f1 | e] b1]; [| reflexivity].
  destruct (readLength f1 b1) as [[f2 | e] b2]; [| reflexivity].
  destruct (readMaskKey f2 b2) as [[f3 | e] b3]; reflexivity.
Qed.

(** The two header bytes of the encoder. *)
Lemma header_bytes f :
  toBytesPayloadLength f
    (toBytesMasked f (toBytesOpcode f (toBytesFin f [0; 0]))) =
  [byte0 f; byte1 f].
Proof.
  unfold byte0, byte1, toBytesPayloadLength, toBytesMasked, toBytesOpcode,
    toBytesFin.
  destruct (fin f), (negb (len (key f) =? 0)), (len (payload f) <=? 125),
    (len (payload f) <=? 65535), (len (payload f) <=? 9223372036854775807);
    reflexivity.
Qed.

Lemma toBytes_valid f :
  opcodeExist (opcode f) = true -> validateKey (key f) = true ->
  len (payload f) <= maxPayload ->
  toBytes f =
  Ok (byte0 f :: byte1 f ::
      (toBytesPayloadLengthExt f ++ key f) ++ toBytesPayloadData f).
Proof.
  intros Ho Hk Hp. unfold toBytes, validate. rewrite Ho, Hk. cbn [negb].
  unfold validatePayload. apply Z.leb_le in Hp. rewrite Hp. cbn [negb].
  rewrite header_bytes. cbn [app]. now rewrite <- !app_assoc.
Qed.

(** The extended length the encoder writes is read back as the length. *)
Lemma ext_decodes l :
  125 < l <= maxPayload ->
  let u := if l <=? 65535 then PutUint16 (wrap16 l) else PutUint64 (wrap64 l) in
  len u = (if marker l =? 127 then 8 else 2) /\
  Z.land (combine64 u 0) 9223372036854775807 = l.
Proof.
  unfold maxPayload, marker. intros H.
  destruct (l <=? 125) eqn:E1; [apply Z.leb_le in E1; lia |].
  destruct (l <=? 65535) eqn:E2; cbn zeta.
  - apply Z.leb_le in E2. split; [reflexivity |].
    rewrite combine64_bigEndian.
    + rewrite bigEndian_PutUint16, land_63, Z.mod_small; lia.
    + unfold PutUint16. repeat constructor; apply wrap8_byte.
    + cbn. lia.
  - split; [reflexivity |].
    rewrite combine64_bigEndian.
    + rewrite bigEndian_PutUint64, land_63, Z.mod_small; lia.
    + unfold PutUint64. repeat constructor; apply wrap8_byte.
    + cbn. lia.
Qed.

Lemma toBytesPayloadLengthExt_cases f :
  len (payload f) <= maxPayload ->
  toBytesPayloadLengthExt f =
  if len (payload f) <=? 125 then []
  else if len (payload f) <=? 65535 then PutUint16 (wrap16 (len (payload f)))
  else PutUint64 (wrap64 (len (payload f))).
Proof.
  intros H. unfold toBytesPayloadLengthExt, maxPayload in *.
  destruct (len (payload f) <=? 125); [reflexivity |].
  destruct (len (payload f) <=? 65535); [reflexivity |].
  destruct (len (payload f) <=? 9223372036854775807) eqn:E; [reflexivity |].
  apply Z.leb_gt in E. lia.
Qed.

Lemma len_0_nil {A} (l : list A) : len l = 0 -> l = [].
Proof. destruct l; [reflexivity | unfold len; cbn; lia]. Qed.

Lemma toBytesPayloadData_len f :
  len (toBytesPayloadData f) = len (payload f).
Proof.
  unfold toBytesPayloadData, mask, len. destruct (_ =? 4); [| reflexivity].
  now rewrite mask_from_len.
Qed.

(** Decoding what the encoder wrote, from a reader of buffer size [sz] whose
    transport delivers the bytes in one chunk. *)
Lemma decode_encoded f sz :
  (16 <= sz)%nat ->
  opcodeExist (opcode f) = true -> validateKey (key f) = true ->
  len (payload f) <= maxPayload ->
  exists bytes R',
    toBytes f = Ok bytes /\
    newFrame (mkReader [] sz [Data bytes]) =
      (Ok (mkFrame (fin f) (opcode f) (negb (len (key f) =? 0))
                   (len (payload f)) (key f) (payload f)), R') /\
    contents R' = [].
Proof.
  intros Hsz Ho Hk Hp.
  set (ext := toBytesPayloadLengthExt f).
  set (data := toBytesPayloadData f).
  set (l := len (payload f)) in *.
  set (msk := negb (len (key f) =? 0)).
  pose proof (len_nonneg (payload f)) as Hl0. fold l in Hl0.
  assert (Hkl : len (key f) = 0 \/ len (key f) = 4).
  { unfold validateKey in Hk. apply orb_true_iff in Hk.
    destruct Hk as [H | H]; apply Z.eqb_eq in H; auto. }
  assert (Hext : (List.length ext <= 8)%nat).
  { unfold ext. rewrite toBytesPayloadLengthExt_cases by assumption. fold l.
    destruct (l <=? 125); [cbn; lia |]. destruct (l <=? 65535); cbn; lia. }
  exists (byte0 f :: byte1 f :: (ext ++ key f) ++ data).
  destruct (streaming_start (byte0 f) (byte1 f) (ext ++ key f) data sz)
    as [R1 [E1 S1]].
  { rewrite length_app. unfold len in Hkl. lia. }
  (* readInitial *)
  assert (I1 : readInitial emptyFrame
                 (mkReader [] sz [Data (byte0 f :: byte1 f :: (ext ++ key f) ++ data)])
               = (Ok (mkFrame (fin f) (opcode f) msk (marker l) [] []), R1)).
  { unfold readInitial, bind. rewrite E1. cbn [nth].
    destruct (byte0_decodes f Ho) as (A1 & A2 & A3).
    destruct (byte1_decodes f Hp) as (B1 & B2).
    rewrite A1, A2, A3, B1, B2. cbn [Z.eqb negb].
    unfold set_opcode at 1. cbn [opcode]. rewrite Ho. cbn [negb].
    unfold ret. fold l msk. f_equal. destruct (fin f), msk; reflexivity. }
  (* readLength *)
  assert (I2 : exists R2,
             readLength (mkFrame (fin f) (opcode f) msk (marker l) [] []) R1
             = (Ok (mkFrame (fin f) (opcode f) msk l [] []), R2) /\
             streaming R2 (key f) data).
  { rewrite readLength_unfold. cbn [length].
    unfold ext in S1. rewrite toBytesPayloadLengthExt_cases in S1 by assumption.
    fold l in S1. unfold marker at 1.
    destruct (l <=? 125) eqn:C1.
    - rewrite C1. exists R1. split; [| exact S1].
      unfold marker. now rewrite C1.
    - assert (C1' : 125 < l) by (apply Z.leb_gt in C1; exact C1).
      destruct (ext_decodes l (conj C1' Hp)) as [L1 L2].
      assert (M : (marker l <=? 125) = false).
      { unfold marker. rewrite C1. destruct (l <=? 65535); reflexivity. }
      replace (if l <=? 65535 then 126 else 127) with (marker l)
        by (unfold marker; now rewrite C1).
      rewrite M.
      destruct (streaming_header _ _ _ _ S1) as [R2 [E2 S2]].
      rewrite L1 in E2. rewrite E2. exists R2. split; [| exact S2].
      unfold set_length. cbn [fin opcode masked key payload].
      now rewrite L2. }
  destruct I2 as [R2 [I2 S2]].
  (* readMaskKey *)
  assert (I3 : exists R3,
             readMaskKey (mkFrame (fin f) (opcode f) msk l [] []) R2
             = (Ok (mkFrame (fin f) (opcode f) msk l (key f) []), R3) /\
             streaming R3 [] data).
  { unfold readMaskKey. cbn [masked]. unfold msk in *.
    destruct Hkl as [K | K]; rewrite K in *; cbn [Z.eqb negb].
    - exists R2. apply len_0_nil in K. rewrite K in *. split; [reflexivity | exact S2].
    - rewrite <- (app_nil_r (key f)) in S2.
      destruct (streaming_header _ _ _ _ S2) as [R3 [E3 S3]].
      rewrite K in E3. unfold bind. rewrite E3. exists R3.
      split; [reflexivity | exact S3]. }
  destruct I3 as [R3 [I3 S3]].
  (* readPayload *)
  destruct (streaming_data _ _ S3) as [R4 [E4 C4]].
  exists R4. split; [| split; [| exact C4]].
  - unfold ext, data. now apply toBytes_valid.
  - rewrite newFrame_unfold, I1, I2, I3.
    unfold readPayload, bind. cbn [length].
    unfold data in E4 at 1. rewrite toBytesPayloadData_len in E4. fold l in E4.
    rewrite E4. unfold ret. cbn [masked key]. unfold set_payload.
    cbn [fin opcode masked length key].
    unfold data, toBytesPayloadData, msk.
    destruct Hkl as [K | K]; rewrite K.
    + reflexivity.
    + change (4 =? 0) with false. change (4 =? 4) with true.
      cbn [negb]. cbn iota. now rewrite mask_involutive.
Qed.

(** C1: for every frame with a defined opcode, a key of 0 or 4 bytes and
    a payload of at most 2^63-1 bytes, [toBytes] succeeds, and [newFrame] on
    a reader over those bytes returns a frame with the same fin, opcode,
    key and payload. *)
Theorem frame_roundtrip (f : frame) :
  In (opcode f) [0; 1; 2; 8; 9; 10] ->
  len (key f) = 0 \/ len (key f) = 4 ->
  len (payload f) <= 2 ^ 63 - 1 ->
  exists bytes f' R',
    toBytes f = Ok bytes /\
    newFrame (NewReader [Data bytes]) = (Ok f', R') /\
    fin f' = fin f /\ opcode f' = opcode f /\
    key f' = key f /\ payload f' = payload f.
Proof.
  intros Ho Hk Hp.
  assert (Ho' : opcodeExist (opcode f) = true).
  { unfold opcodeExist. apply existsb_exists. exists (opcode f).
    split; [exact Ho | apply Z.eqb_refl]. }
  assert (Hk' : validateKey (key f) = true).
  { unfold validateKey. destruct Hk as [-> | ->]; reflexivity. }
  destruct (decode_encoded f defaultBufSize) as (bytes & R' & E1 & E2 & _);
    try assumption.
  - unfold defaultBufSize. lia.
  - exists bytes. eexists. exists R'.
    split; [exact E1 |]. split; [exact E2 |]. cbn. auto.
Qed.

Lemma frame_roundtrip_witness :
  exists bytes f' R',
    toBytes (mkFrame true 1 false 0 [1; 2; 3; 4] [104; 105]) = Ok bytes /\
    newFrame (NewReader [Data bytes]) = (Ok f', R') /\
    fin f' = true /\ opcode f' = 1 /\
    key f' = [1; 2; 3; 4] /\ payload f' = [104; 105].
Proof.
  apply (frame_roundtrip (mkFrame true 1 false 0 [1; 2; 3; 4] [104; 105])).
  - cbn. auto.
  - right. reflexivity.
  - cbn. lia.
Defined.

(** * Further properties *)

(** * Further properties *)

(** ** Masking and close errors *)


Lemma string_of_bytes_of_string (s : string) :
  string_of_bytes (bytes_of_string s) = s.
Proof.
  induction s as [| c s IH]; cbn; [reflexivity |].
  now rewrite Nat2Z.id, ascii_nat_embedding, IH.
Qed.

Lemma recognized_code_bytes (c : Z) :
  closeErrorExist c = true -> Uint16 (PutUint16 (wrap16 c)) = c.
Proof.
  intros H. apply closeErrorExist_spec in H. cbn in H.
  repeat (destruct H as [H | H]; [subst c; reflexivity |]). contradiction.
Qed.

Lemma NewCloseError_code_bytes (c : Z) (r : list byte) :
  closeErrorExist c = true ->
  NewCloseError (PutUint16 (wrap16 c) ++ r) =
  (mkCloseError c (string_of_bytes r), None).
Proof.
  intros H. unfold NewCloseError.
  assert (E : (2 <=? len (PutUint16 (wrap16 c) ++ r)) = true).
  { apply Z.leb_le. rewrite len_app. pose proof (len_nonneg r).
    change (len (PutUint16 (wrap16 c))) with 2. lia. }
  rewrite E. cbn [PutUint16 app firstn skipn].
  change [wrap8 (Z.shiftr (wrap16 c) 8); wrap8 (wrap16 c)]
    with (PutUint16 (wrap16 c)).
  rewrite (recognized_code_bytes c H), H. reflexivity.
Qed.

(** X2: what [ToBytes] returns is always read back by [NewCloseError]
    without error; it is read back as the CloseError itself when its code is
    recognised, and as {1005, "no status recieved"} when it is not. *)
Theorem NewCloseError_ToBytes (c : CloseError) :
  snd (NewCloseError (fst (CloseError_ToBytes c))) = None /\
  fst (NewCloseError (fst (CloseError_ToBytes c))) =
    (if closeErrorExist (Code c) then c else noStatus).
Proof.
  unfold CloseError_ToBytes. destruct (closeErrorExist (Code c)) eqn:E.
  - cbn [negb fst]. unfold toBytesCode.
    rewrite (NewCloseError_code_bytes _ _ E), string_of_bytes_of_string.
    destruct c. split; reflexivity.
  - cbn [negb fst]. split; reflexivity.
Qed.

(** X3: [NewCloseError] never returns an unrecognised code: for every
    payload the CloseError it returns has a code of the recognised set; it
    signals an error exactly when the payload is shorter than 2 bytes or its
    first two bytes are not a recognised code, and then returns
    {1005, "no status recieved"}. *)
Theorem NewCloseError_recognized (b : list byte) :
  closeErrorExist (Code (fst (NewCloseError b))) = true /\
  (snd (NewCloseError b) = None <->
   2 <= len b /\ closeErrorExist (Uint16 (firstn 2 b)) = true) /\
  (snd (NewCloseError b) <> None -> fst (NewCloseError b) = noStatus).
Proof.
  unfold NewCloseError. destruct (2 <=? len b) eqn:E.
  - apply Z.leb_le in E.
    destruct (closeErrorExist (Uint16 (firstn 2 b))) eqn:C; cbn [negb fst snd Code].
    + repeat split; auto. intros F. now elim F.
    + repeat split; auto; try discriminate. intros [_ F]. discriminate F.
  - apply Z.leb_gt in E. change (closeErrorExist 0) with false.
    cbn [negb fst snd]. repeat split; auto; try discriminate.
    intros [F _]. lia.
Qed.

Lemma NewCloseError_recognized_witness :
  snd (NewCloseError [3]) <> None /\ fst (NewCloseError [3]) = noStatus.
Proof.
  split; [discriminate |].
  apply (proj2 (proj2 (NewCloseError_recognized [3]))). discriminate.
Defined.

(** ** The frame codec *)

Lemma toBytes_accepts (f : frame) (b : list byte) :
  toBytes f = Ok b ->
  opcodeExist (opcode f) = true /\ validateKey (key f) = true /\
  len (payload f) <= maxPayload.
Proof.
  intros H. unfold toBytes, validate in H.
  destruct (opcodeExist (opcode f)); [| discriminate H].
  destruct (validateKey (key f)); [| discriminate H].
  unfold validatePayload in H.
  destruct (len (payload f) <=? maxPayload) eqn:E; [| discriminate H].
  apply Z.leb_le in E. auto.
Qed.



Lemma readInitial_ok (b b1 : Reader) (f1 : frame) :
  readInitial emptyFrame b = (Ok f1, b1) ->
  opcodeExist (opcode f1) = true /\ 0 <= length f1 <= 127 /\
  key f1 = [] /\ payload f1 = [].
Proof.
  unfold readInitial, bind. destruct (readFromBuffer 2 b) as [[p | e] b0];
    [| discriminate].
  destruct (negb (Z.land (nth 0%nat p 0) 112 =? 0)); [discriminate |].
  match goal with |- context [negb (opcodeExist ?o)] =>
    destruct (opcodeExist o) eqn:E end; [| discriminate].
  cbn [negb]. unfold ret. intros H. inversion H; subst. clear H.
  assert (L : 0 <= Z.land (nth 1%nat p 0) 127 <= 127).
  { change 127 with (Z.ones 7) at 1 2. rewrite Z.land_ones by lia.
    pose proof (Z.mod_pos_bound (nth 1%nat p 0) (2 ^ 7) ltac:(lia)).
    change (2 ^ 7) with 128 in *. change (Z.ones 7) with 127. lia. }
  destruct (Z.shiftr (nth 1%nat p 0) 7 =? 1),
    (Z.shiftr (nth 0%nat p 0) 7 =? 1); cbn in *; auto.
Qed.

Lemma readLength_ok (f1 f2 : frame) (b1 b2 : Reader) :
  0 <= length f1 ->
  readLength f1 b1 = (Ok f2, b2) ->
  0 <= length f2 <= maxPayload /\
  fin f2 = fin f1 /\ opcode f2 = opcode f1 /\ masked f2 = masked f1 /\
  key f2 = key f1 /\ payload f2 = payload f1.
Proof.
  intros H0. rewrite readLength_unfold.
  destruct (length f1 <=? 125) eqn:E.
  - apply Z.leb_le in E. intros H. inversion H; subst.
    unfold maxPayload. repeat split; try reflexivity; try lia.
  - destruct (readFromBuffer _ b1) as [[u | e] b'] eqn:ER; [| discriminate].
    intros H. inversion H; subst. cbn. rewrite land_63.
    pose proof (Z.mod_pos_bound (combine64 u 0) (2 ^ 63) ltac:(lia)).
    unfold maxPayload. change (2 ^ 63) with 9223372036854775808 in *.
    repeat split; try reflexivity; try lia.
Qed.

Lemma readMaskKey_ok (f2 f3 : frame) (b2 b3 : Reader) :
  key f2 = [] ->
  readMaskKey f2 b2 = (Ok f3, b3) ->
  (if masked f3 then len (key f3) = 4 else key f3 = []) /\
  fin f3 = fin f2 /\ opcode f3 = opcode f2 /\ masked f3 = masked f2 /\
  length f3 = length f2 /\ payload f3 = payload f2.
Proof.
  intros K. unfold readMaskKey. destruct (masked f2) eqn:M; cbn [negb].
  - unfold bind. destruct (readFromBuffer 4 b2) as [[p | e] b'] eqn:ER;
      [| discriminate].
    unfold ret. intros H. inversion H; subst. cbn. rewrite M.
    destruct (readFromBuffer_ok 4 b2 p b3 ltac:(lia) ER) as (L & _).
    repeat split; auto.
  - unfold ret. intros H. inversion H; subst. rewrite M.
    repeat split; auto.
Qed.

Lemma newFrame_ok (b b' : Reader) (f : frame) :
  newFrame b = (Ok f, b') ->
  opcodeExist (opcode f) = true /\
  0 <= length f <= 2 ^ 63 - 1 /\
  len (payload f) = length f /\
  (if masked f then len (key f) = 4 else key f = []).
Proof.
  rewrite newFrame_unfold.
  destruct (readInitial emptyFrame b) as [[f1 | e] b1] eqn:E1; [| discriminate].
  destruct (readLength f1 b1) as [[f2 | e] b2] eqn:E2; [| discriminate].
  destruct (readMaskKey f2 b2) as [[f3 | e] b3] eqn:E3; [| discriminate].
  destruct (readInitial_ok _ _ _ E1) as (A1 & A2 & A3 & A4).
  destruct (readLength_ok _ _ _ _ (proj1 A2) E2) as (B1 & B2 & B3 & B4 & B5 & B6).
  assert (K2 : key f2 = []) by congruence.
  destruct (readMaskKey_ok _ _ _ _ K2 E3) as (C1 & C2 & C3 & C4 & C5 & C6).
  unfold readPayload, bind.
  destruct (readFromBuffer (length f3) b3) as [[p | e] b4] eqn:E4;
    [| discriminate].
  unfold ret. intros H. injection H as <- <-.
  destruct (readFromBuffer_ok (length f3) b3 p b4 ltac:(lia) E4) as (L & _).
  unfold maxPayload in B1. change (2 ^ 63 - 1) with 9223372036854775807.
  unfold set_payload. cbn [opcode length payload masked key].
  split; [congruence |]. split; [lia |]. split; [| exact C1].
  destruct (masked f3); [| exact L].
  unfold mask, len in *. now rewrite mask_from_len.
Qed.

(** X5: every frame [newFrame] returns is well formed: its opcode is one of
    the six defined ones, its length is between 0 and 2^63-1 and is the
    number of payload bytes, and its key has 4 bytes when the frame is
    masked and is empty when it is not. *)
Theorem newFrame_well_formed (b b' : Reader) (f : frame) :
  newFrame b = (Ok f, b') ->
  opcodeExist (opcode f) = true /\
  0 <= length f <= 2 ^ 63 - 1 /\
  len (payload f) = length f /\
  (if masked f then len (key f) = 4 else key f = []).
Proof. apply newFrame_ok. Qed.

Lemma newFrame_well_formed_witness :
  opcodeExist 1 = true /\ len [104; 105] = 2.
Proof.
  destruct (newFrame_well_formed
              (NewReader [Data [129; 130; 1; 2; 3; 4; 105; 107]])
              (mkReader [] defaultBufSize [])
              (mkFrame true 1 true 2 [1; 2; 3; 4] [104; 105]) eq_refl)
    as (H1 & _ & H2 & _).
  split; [exact H1 | exact H2].
Defined.

(** X6: [newFrame] refuses a frame on its first byte: when one of the
    bits 4..6 is set the result is CloseError 1002 "no support for
    extensions", whatever the opcode; otherwise, when the low four bits are
    not a defined opcode, it is CloseError 1002 "unsupported opcode: N". In
    both cases only the two header bytes have been read. *)
Theorem newFrame_refusals (b b' : Reader) (p : list byte) :
  readFromBuffer 2 b = (Ok p, b') ->
  (Z.land (nth 0%nat p 0) 112 <> 0 ->
   newFrame b =
   (Err (ECloseError (mkCloseError 1002 "no support for extensions")), b')) /\
  (Z.land (nth 0%nat p 0) 112 = 0 ->
   opcodeExist (Z.land (nth 0%nat p 0) 15) = false ->
   newFrame b =
   (Err (ECloseError
           (mkCloseError 1002
              ("unsupported opcode: " ++ sprintf_d (Z.land (nth 0%nat p 0) 15)))),
    b')).
Proof.
  intros H. rewrite newFrame_unfold. unfold readInitial, bind. rewrite H.
  split.
  - intros N. apply Z.eqb_neq in N. rewrite N. reflexivity.
  - intros Z0 O. rewrite Z0. cbn [Z.eqb negb].
    unfold set_opcode at 1. cbn [opcode]. rewrite O. reflexivity.
Qed.

Lemma newFrame_refusals_witness :
  newFrame (mkReader [143; 0] 4096 []) =
  (Err (ECloseError (mkCloseError 1002 "unsupported opcode: 15")),
   mkReader [] 4096 []) /\
  newFrame (mkReader [193; 0] 4096 []) =
  (Err (ECloseError (mkCloseError 1002 "no support for extensions")),
   mkReader [] 4096 []).
Proof.
  split.
  - apply (proj2 (newFrame_refusals (mkReader [143; 0] 4096 [])
                    (mkReader [] 4096 []) [143; 0] eq_refl));
      reflexivity.
  - apply (proj1 (newFrame_refusals (mkReader [193; 0] 4096 [])
                    (mkReader [] 4096 []) [193; 0] eq_refl)).
    discriminate.
Defined.

(** Bytes at the front of the buffer are read in one go. *)
Lemma readFromBuffer_front (x rest : list byte) sz src :
  readFromBuffer (len x) (mkReader (x ++ rest) sz src) =
  (Ok x, mkReader rest sz src).
Proof.
  rewrite readFromBuffer_buffered.
  - cbn [buf size rd]. unfold len. rewrite Nat2Z.id, firstn_app_exact.
    rewrite skipn_app, Nat.sub_diag, skipn_all. reflexivity.
  - split; [apply len_nonneg |]. unfold Buffered. cbn [buf].
    rewrite len_app. pose proof (len_nonneg rest). lia.
Qed.

(** A frame whose encoding is wholly in the buffer is decoded by reads of
    the buffer alone, and what follows it stays in the buffer. *)
Lemma decode_buffered (f : frame) (bytes rest : list byte) sz src :
  toBytes f = Ok bytes ->
  newFrame (mkReader (bytes ++ rest) sz src) =
  (Ok (decoded f), mkReader rest sz src).
Proof.
  intros H. destruct (toBytes_accepts f bytes H) as (Ho & Hk & Hp).
  assert (Hkl : len (key f) = 0 \/ len (key f) = 4).
  { unfold validateKey in Hk. apply orb_true_iff in Hk.
    destruct Hk as [K | K]; apply Z.eqb_eq in K; auto. }
  rewrite (toBytes_valid f Ho Hk Hp) in H. inversion H; subst bytes. clear H.
  set (ext := toBytesPayloadLengthExt f).
  set (data := toBytesPayloadData f).
  set (l := len (payload f)) in *.
  set (msk := negb (len (key f) =? 0)).
  rewrite newFrame_unfold.
  (* readInitial *)
  assert (I1 : readInitial emptyFrame
                 (mkReader ((byte0 f :: byte1 f :: (ext ++ key f) ++ data) ++ rest)
                           sz src)
               = (Ok (mkFrame (fin f) (opcode f) msk (marker l) [] []),
                  mkReader (ext ++ key f ++ data ++ rest) sz src)).
  { unfold readInitial, bind.
    change ((byte0 f :: byte1 f :: (ext ++ key f) ++ data) ++ rest)
      with ([byte0 f; byte1 f] ++ ((ext ++ key f) ++ data) ++ rest).
    change 2 with (len [byte0 f; byte1 f]) at 1.
    rewrite readFromBuffer_front. cbn [nth].
    destruct (byte0_decodes f Ho) as (A1 & A2 & A3).
    destruct (byte1_decodes f Hp) as (B1 & B2).
    rewrite A1, A2, A3, B1, B2. cbn [Z.eqb negb].
    unfold set_opcode at 1. cbn [opcode]. rewrite Ho. cbn [negb].
    unfold ret. fold l msk. rewrite <- !app_assoc.
    f_equal. destruct (fin f), msk; reflexivity. }
  rewrite I1.
  (* readLength *)
  assert (I2 : readLength (mkFrame (fin f) (opcode f) msk (marker l) [] [])
                 (mkReader (ext ++ key f ++ data ++ rest) sz src)
               = (Ok (mkFrame (fin f) (opcode f) msk l [] []),
                  mkReader (key f ++ data ++ rest) sz src)).
  { rewrite readLength_unfold. cbn [length]. unfold ext.
    rewrite (toBytesPayloadLengthExt_cases f Hp). fold l. unfold marker at 1.
    destruct (l <=? 125) eqn:C1.
    - rewrite C1. unfold marker. rewrite C1. reflexivity.
    - assert (C1' : 125 < l) by (apply Z.leb_gt in C1; exact C1).
      destruct (ext_decodes l (conj C1' Hp)) as [L1 L2].
      assert (M : (marker l <=? 125) = false).
      { unfold marker. rewrite C1. destruct (l <=? 65535); reflexivity. }
      replace (if l <=? 65535 then 126 else 127) with (marker l)
        by (unfold marker; now rewrite C1).
      rewrite M, <- L1, readFromBuffer_front.
      unfold set_length. cbn [fin opcode masked key payload].
      now rewrite L2. }
  rewrite I2.
  (* readMaskKey *)
  assert (I3 : readMaskKey (mkFrame (fin f) (opcode f) msk l [] [])
                 (mkReader (key f ++ data ++ rest) sz src)
               = (Ok (mkFrame (fin f) (opcode f) msk l (key f) []),
                  mkReader (data ++ rest) sz src)).
  { unfold readMaskKey. cbn [masked]. unfold msk.
    destruct Hkl as [K | K]; rewrite K; cbn [Z.eqb negb].
    - apply len_0_nil in K. rewrite K. reflexivity.
    - unfold bind. rewrite <- K, readFromBuffer_front. reflexivity. }
  rewrite I3.
  (* readPayload *)
  unfold readPayload, bind. cbn [length].
  pose proof (readFromBuffer_front data rest sz src) as R.
  unfold data in R at 1. rewrite toBytesPayloadData_len in R. fold l in R.
  rewrite R. unfold ret, decoded, set_payload.
  cbn [fin opcode masked length key]. fold msk l.
  unfold data, toBytesPayloadData, msk.
  destruct Hkl as [K | K]; rewrite K.
  - reflexivity.
  - change (4 =? 0) with false. change (4 =? 4) with true.
    cbn [negb]. cbn iota. now rewrite mask_involutive.
Qed.

(** X7: frames that lie one after the other in the buffer are decoded in
    wire order: [newFrame] on a buffer that starts with the encoding of [f]
    returns [f] (fin, opcode, key, payload; masked and length as derived)
    and leaves exactly the bytes after it, so that a second [newFrame]
    returns the frame encoded next. *)
Theorem newFrame_in_wire_order (f g : frame) (bf bg rest : list byte) sz src :
  toBytes f = Ok bf -> toBytes g = Ok bg ->
  newFrame (mkReader (bf ++ bg ++ rest) sz src) =
    (Ok (decoded f), mkReader (bg ++ rest) sz src) /\
  newFrame (mkReader (bg ++ rest) sz src) =
    (Ok (decoded g), mkReader rest sz src).
Proof.
  intros Hf Hg. split; now apply decode_buffered.
Qed.

Lemma newFrame_in_wire_order_witness :
  newFrame (mkReader ([129; 2; 104; 105] ++ [138; 0] ++ [7]) 4096 []) =
    (Ok (mkFrame true 1 false 2 [] [104; 105]),
     mkReader ([138; 0] ++ [7]) 4096 []) /\
  newFrame (mkReader ([138; 0] ++ [7]) 4096 []) =
    (Ok (mkFrame true 10 false 0 [] []), mkReader [7] 4096 []).
Proof.
  apply (newFrame_in_wire_order
           (mkFrame true 1 false 0 [] [104; 105])
           (mkFrame true 10 false 0 [] [])); reflexivity.
Defined.

(** ** Exact-length reads *)

(** X8: [readFromBuffer] never returns a short or shifted slice: when it
    succeeds the result is exactly the first [l] bytes the reader had to
    deliver and the reader is left with exactly the bytes after them; and
    when the reader has fewer than [l] bytes to deliver it does not succeed. *)
Theorem readFromBuffer_exact (l : Z) (b : Reader) :
  0 <= l ->
  (forall u b', readFromBuffer l b = (Ok u, b') ->
     len u = l /\ u = firstn (Z.to_nat l) (contents b) /\
     contents b' = skipn (Z.to_nat l) (contents b)) /\
  (len (contents b) < l ->
   forall u b', readFromBuffer l b <> (Ok u, b')).
Proof.
  intros Hl. split.
  - intros u b' H. destruct (readFromBuffer_ok l b u b' Hl H) as (H1 & H2 & H3).
    repeat split; try assumption.
    rewrite H2. unfold len in H1. rewrite <- H1, Nat2Z.id.
    now rewrite skipn_app, Nat.sub_diag, skipn_all.
  - intros Hs u b' H. destruct (readFromBuffer_ok l b u b' Hl H) as (H1 & H2 & _).
    rewrite H2, len_app in Hs. pose proof (len_nonneg (contents b')). lia.
Qed.

Lemma readFromBuffer_exact_witness :
  len [1; 2] = 2 /\
  [1; 2] = firstn (Z.to_nat 2) (contents (mkReader [1; 2; 3] 4096 [])) /\
  contents (mkReader [3] 4096 []) =
    skipn (Z.to_nat 2) (contents (mkReader [1; 2; 3] 4096 [])).
Proof.
  apply (proj1 (readFromBuffer_exact 2 (mkReader [1; 2; 3] 4096 [])
                  ltac:(lia)) [1; 2] (mkReader [3] 4096 [])).
  reflexivity.
Defined.

(** ** The socket: states and traces *)

Lemma TCPClose_state s : state (TCPClose s) = stateClosed.
Proof.
  unfold TCPClose. destruct (State_eqb (state s) stateClosed) eqn:E.
  - now apply State_eqb_eq.
  - unfold callCloseHandler. cbn. now destruct (CloseHandler s).
Qed.

Lemma tcpClose_state s : state (tcpClose s) = stateClosed.
Proof.
  unfold tcpClose. destruct (State_eqb (state s) stateClosed) eqn:E.
  - now apply State_eqb_eq.
  - apply TCPClose_state.
Qed.

Lemma rank_closed st : (rank st <= rank stateClosed)%nat.
Proof. destruct st; cbn; lia. Qed.

Lemma Write_rank w o p s :
  (rank (state s) <= rank (state (fst (Write w o p s))))%nat.
Proof.
  rewrite Write_unfold.
  destruct (State_eqb (state s) stateClosed) eqn:E; [cbn; lia |].
  apply State_eqb_neq in E.
  destruct (toBytes (outFrame w o p s)) as [b | e]; [| cbn; lia].
  cbn zeta. destruct (flushErr w).
  - cbn [fst]. rewrite TCPClose_state. apply rank_closed.
  - cbn [fst]. destruct (o =? OpcodeClose); cbn; [| lia].
    destruct (state s); cbn; try lia. congruence.
Qed.

Lemma CloseWithError_rank w e s :
  (rank (state s) <= rank (state (CloseWithError w e s)))%nat.
Proof.
  unfold CloseWithError. destruct (CloseError_ToBytes e) as [b o].
  apply (Write_rank w OpcodeClose b (set_closeError (Some (ECloseError e)) s)).
Qed.

Lemma read_rank fuel : forall ws s,
  (rank (state s) <= rank (state (read fuel ws s)))%nat.
Proof.
  induction fuel as [| fuel IH]; intros ws s; [cbn; lia |].
  cbn [read]. destruct (newFrame (reader s)) as [r b].
  change (rank (state s)) with (rank (state (set_reader b s))).
  set (s1 := set_reader b s).
  destruct (State_eqb (state s1) stateClosed); [lia |].
  assert (T : forall c, (rank (state s1) <=
                         rank (state (TCPClose (set_closeError c s1))))%nat)
    by (intros c; rewrite TCPClose_state; apply rank_closed).
  destruct r as [f | e].
  - repeat match goal with
           | |- context [if ?c then _ else _] =>
               lazymatch c with
               | State_eqb _ _ => fail
               | _ => destruct c
               end
           end;
      try apply CloseWithError_rank;
      try (etransitivity; [| apply IH]);
      try (unfold callReadHandler, callPongHandler, callPingHandler,
             defaultPingHandler;
           match goal with
           | |- context [if ?c then _ else _] => destruct c
           end; cbn [state emit]; try lia; apply Write_rank);
      try lia.
    destruct (NewCloseError (payload f)) as [c cerr].
    match goal with
    | |- context [if ?c then _ else _] => destruct c
    end; rewrite tcpClose_state; apply rank_closed.
  - destruct e; try apply CloseWithError_rank; try apply T; lia.
Qed.

Lemma step_rank s o : (rank (state s) <= rank (state (step s o)))%nat.
Proof.
  destruct o; cbn [step].
  - apply Write_rank.
  - rewrite TCPClose_state. apply rank_closed.
  - apply CloseWithError_rank.
  - apply CloseWithError_rank.
  - apply read_rank.
  - cbn. lia.
  - cbn. lia.
Qed.

(** X9: the state of a socket only moves forward: over any sequence of
    operations it goes from Opened to Closing to Closed (or from Opened to
    Closed) and never back. *)
Theorem state_monotonic (ops : list op) (s : Socket) :
  (rank (state s) <= rank (state (run ops s)))%nat.
Proof.
  revert s. induction ops as [| o ops IH]; intros s; [cbn; lia |].
  change (run (o :: ops) s) with (run ops (step s o)).
  etransitivity; [apply (step_rank s o) |]. apply IH.
Qed.

Lemma Write_closed w o p s :
  state s = stateClosed -> Write w o p s = (s, Some ErrSocketClosed).
Proof. intros H. unfold Write. now rewrite H. Qed.

Lemma read_closed fuel ws s :
  state s = stateClosed ->
  state (read fuel ws s) = stateClosed /\
  trace (read fuel ws s) = trace s /\
  closeError (read fuel ws s) = closeError s.
Proof.
  intros H. destruct fuel as [| fuel]; [cbn; auto |].
  cbn [read]. destruct (newFrame (reader s)) as [r b].
  cbn [state set_reader]. rewrite H. cbn. auto.
Qed.

Lemma step_closed s o :
  state s = stateClosed ->
  state (step s o) = stateClosed /\ trace (step s o) = trace s.
Proof.
  intros H. destruct o; cbn [step].
  - rewrite (Write_closed _ _ _ _ H). auto.
  - unfold TCPClose. rewrite H. auto.
  - unfold Close, CloseWithError. destruct (CloseError_ToBytes _) as [b e].
    rewrite Write_closed by exact H. auto.
  - unfold CloseWithError. destruct (CloseError_ToBytes _) as [b e0].
    rewrite Write_closed by exact H. auto.
  - destruct (read_closed fuel ws s H) as (A & B & _). auto.
  - auto.
  - auto.
Qed.

(** X10: a Closed socket stays Closed and does nothing more: whatever
    operations follow, the state remains Closed, every [Write] returns
    ErrSocketClosed, and no frame is written, no handler called and the
    transport not touched again. *)
Theorem closed_is_final (ops : list op) (s : Socket) :
  state s = stateClosed ->
  state (run ops s) = stateClosed /\
  trace (run ops s) = trace s /\
  forall w o p, snd (Write w o p (run ops s)) = Some ErrSocketClosed.
Proof.
  intros H.
  assert (G : state (run ops s) = stateClosed /\ trace (run ops s) = trace s).
  { revert s H. induction ops as [| o ops IH]; intros s H; [auto |].
    change (run (o :: ops) s) with (run ops (step s o)).
    destruct (step_closed s o H) as [A B].
    destruct (IH _ A) as [C D]. split; [exact C | now rewrite D]. }
  destruct G as [G1 G2]. repeat split; try assumption.
  intros w o p. now rewrite Write_closed.
Qed.

Lemma closed_is_final_witness :
  let s := TCPClose (newSocket true (NewReader [])) in
  trace (run [OpWrite quiet 1 [104]; OpClose quiet; OpTCPClose] s) = trace s.
Proof.
  cbn zeta.
  apply (closed_is_final [OpWrite quiet 1 [104]; OpClose quiet; OpTCPClose]
           (TCPClose (newSocket true (NewReader [])))).
  reflexivity.
Defined.

(** ** The socket: frames written and read *)

Lemma key_of_valid w : validateKey (key_of w) = true /\ len (key_of w) = 4.
Proof. unfold key_of. destruct (rnd w) as [[[a b] c] d]. split; reflexivity. Qed.

Lemma outFrame_encodes w o p s :
  opcodeExist o = true -> len p <= maxPayload ->
  exists b, toBytes (outFrame w o p s) = Ok b /\
            decoded (outFrame w o p s) =
            mkFrame true o (negb (server s)) (len p)
                    (if server s then [] else key_of w) p.
Proof.
  intros Ho Hp.
  assert (Hk : validateKey (key (outFrame w o p s)) = true).
  { unfold outFrame. cbn [key]. destruct (server s); [reflexivity |].
    apply key_of_valid. }
  eexists. split.
  - apply toBytes_valid; assumption.
  - unfold decoded, outFrame. cbn [fin opcode key payload].
    destruct (server s); [reflexivity |].
    now rewrite (proj2 (key_of_valid w)).
Qed.



(** [Write] on a socket that is not Closed, when the frame encodes and the
    flush succeeds. *)
Lemma Write_ok w o p s b :
  state s <> stateClosed ->
  toBytes (outFrame w o p s) = Ok b -> flushErr w = None ->
  Write w o p s =
  (let s1 := emit (Flush None) (emit (BufWrite b) s) in
   if o =? OpcodeClose then set_state stateClosing s1 else s1, None).
Proof.
  intros Hs Hb Hf. rewrite Write_unfold. apply State_eqb_neq in Hs.
  rewrite Hs, Hb, Hf. reflexivity.
Qed.

Lemma read_unfold fuel ws s r b :
  newFrame (reader s) = (r, b) -> state s <> stateClosed ->
  read (S fuel) ws s =
  let s := set_reader b s in
  match r with
  | Err Blocked => s
  | Err (ECloseError c) => CloseWithError (next_wenv ws) c s
  | Err EOF => TCPClose (set_closeError (Some (ECloseError abnormal)) s)
  | Err (ENetOp _) => TCPClose (set_closeError (Some (ECloseError abnormal)) s)
  | Err _ =>
      CloseWithError (next_wenv ws)
        (mkCloseError CloseProtocolError "protocol error") s
  | Ok f =>
      if server s && negb (masked f) then
        CloseWithError (next_wenv ws)
          (mkCloseError CloseProtocolError "expected payload to be masked") s
      else if negb (server s) && masked f then
        CloseWithError (next_wenv ws)
          (mkCloseError CloseProtocolError
             "expected payload to not be masked") s
      else if (opcode f =? OpcodeText) || (opcode f =? OpcodeBinary) then
        read fuel ws (callReadHandler (opcode f) (payload f) s)
      else if opcode f =? OpcodePing then
        read fuel (if PingHandler s then ws else tl ws)
             (callPingHandler (next_wenv ws) (payload f) s)
      else if opcode f =? OpcodePong then
        read fuel ws (callPongHandler (payload f) s)
      else if opcode f =? OpcodeClose then
        let '(c, cerr) := NewCloseError (payload f) in
        let s := set_closeError (Some (ECloseError c)) s in
        if State_eqb (state s) stateClosing then tcpClose s
        else
          let s := set_state stateClosing s in
          let b := match cerr with
                   | None => toBytesCode c
                   | Some _ => []
                   end in
          let s := fst (Write (next_wenv ws) OpcodeClose b s) in
          tcpClose s
      else read fuel ws s
  end.
Proof.
  intros H Hs. cbn [read]. rewrite H. cbn [state set_reader].
  apply State_eqb_neq in Hs. rewrite Hs. reflexivity.
Qed.

Lemma newFrame_transport_error sz src e :
  newFrame (mkReader [] sz (Fail e :: src)) = (Err e, mkReader [] sz src).
Proof.
  rewrite newFrame_unfold. unfold readInitial, bind, readFromBuffer.
  unfold Buffered. cbn [buf]. change (2 <=? len []) with false. cbn iota.
  unfold measure. cbn [buf rd pending Nat.add readLoop].
  change (Z.to_nat 2) with 2%nat. unfold Read. cbn [buf size rd srcRead].
  destruct (sz <=? 2)%nat; reflexivity.
Qed.

Lemma TCPClose_open s :
  state s <> stateClosed ->
  TCPClose s =
  callCloseHandler (closeError s) (emit ConnClose (set_state stateClosed s)).
Proof.
  intros H. unfold TCPClose. apply State_eqb_neq in H. now rewrite H.
Qed.

(** X12: when the transport reports the end of the stream or a network
    error (a read deadline that expires is one) while the read loop waits
    for a frame, the loop writes no Close frame: it records
    {1006, "abnormal closure"}, closes the transport, calls the CloseHandler
    with that error, and ends with the socket Closed. *)
Theorem read_transport_failure fuel ws s sz src e :
  reader s = mkReader [] sz (Fail e :: src) ->
  state s <> stateClosed ->
  (e = EOF \/ exists m, e = ENetOp m) ->
  state (read (S fuel) ws s) = stateClosed /\
  closeError (read (S fuel) ws s) =
    Some (ECloseError (mkCloseError 1006 "abnormal closure")) /\
  trace (read (S fuel) ws s) =
    trace s ++ ConnClose ::
    (if CloseHandler s
     then [CallCloseHandler
             (Some (ECloseError (mkCloseError 1006 "abnormal closure")))]
     else []).
Proof.
  intros Hr Hs He.
  pose proof (newFrame_transport_error sz src e) as N. rewrite <- Hr in N.
  rewrite (read_unfold fuel ws s _ _ N Hs). cbn zeta.
  assert (E : match e with
              | Blocked => set_reader (mkReader [] sz src) s
              | ECloseError c =>
                  CloseWithError (next_wenv ws) c
                    (set_reader (mkReader [] sz src) s)
              | EOF | ENetOp _ =>
                  TCPClose (set_closeError (Some (ECloseError abnormal))
                              (set_reader (mkReader [] sz src) s))
              | _ =>
                  CloseWithError (next_wenv ws)
                    (mkCloseError CloseProtocolError "protocol error")
                    (set_reader (mkReader [] sz src) s)
              end =
              TCPClose (set_closeError (Some (ECloseError abnormal))
                          (set_reader (mkReader [] sz src) s))).
  { destruct He as [-> | [m ->]]; reflexivity. }
  rewrite E. rewrite TCPClose_open by exact Hs.
  unfold callCloseHandler. cbn.
  destruct (CloseHandler s); cbn; rewrite <- ?app_assoc; cbn;
    repeat split; reflexivity.
Qed.

Lemma read_transport_failure_witness :
  let s := set_CloseHandler true
             (newSocket true (mkReader [] 4096 [Fail EOF])) in
  state (read 1 [] s) = stateClosed /\
  trace (read 1 [] s) =
    [ConnClose;
     CallCloseHandler
       (Some (ECloseError (mkCloseError 1006 "abnormal closure")))].
Proof.
  cbn zeta.
  destruct (read_transport_failure 0 []
              (set_CloseHandler true
                 (newSocket true (mkReader [] 4096 [Fail EOF])))
              4096%nat [] EOF eq_refl) as (H1 & _ & H3).
  - discriminate.
  - now left.
  - split; [exact H1 | exact H3].
Defined.

Lemma CloseWithError_ok w e s cb :
  state s <> stateClosed ->
  toBytes (outFrame w OpcodeClose (fst (CloseError_ToBytes e)) s) = Ok cb ->
  flushErr w = None ->
  CloseWithError w e s =
  set_state stateClosing
    (emit (Flush None)
       (emit (BufWrite cb) (set_closeError (Some (ECloseError e)) s))).
Proof.
  intros Hs Hb Hf. unfold CloseWithError.
  destruct (CloseError_ToBytes e) as [b o]. cbn [fst] in Hb.
  rewrite (Write_ok w OpcodeClose b _ cb); [reflexivity | exact Hs | exact Hb
                                            | exact Hf].
Qed.

(** X13: the read loop enforces the masking rule of each role before any
    handler sees the frame: a server that reads an unmasked frame, and a
    client that reads a masked one, call no handler; they record CloseError
    1002 ("expected payload to be masked", resp. "... to not be masked"),
    write one Close frame carrying it, and stop reading with the socket
    Closing and the transport still open. *)
Theorem read_role_violation fuel ws s f b :
  newFrame (reader s) = (Ok f, b) ->
  state s <> stateClosed ->
  masked f = negb (server s) ->
  flushErr (next_wenv ws) = None ->
  exists cb,
    toBytes (outFrame (next_wenv ws) OpcodeClose
               (fst (CloseError_ToBytes (roleError (server s)))) s) = Ok cb /\
    trace (read (S fuel) ws s) = trace s ++ [BufWrite cb; Flush None] /\
    state (read (S fuel) ws s) = stateClosing /\
    closeError (read (S fuel) ws s) =
      Some (ECloseError (roleError (server s))).
Proof.
  intros N Hs Hm Hf.
  assert (Hp : len (fst (CloseError_ToBytes (roleError (server s))))
               <= maxPayload)
    by (destruct (server s); apply Z.leb_le; reflexivity).
  destruct (outFrame_encodes (next_wenv ws) OpcodeClose _ s eq_refl Hp)
    as [cb [Hb _]].
  exists cb. split; [exact Hb |].
  rewrite (read_unfold fuel ws s _ _ N Hs). cbn zeta.
  cbn [server set_reader]. rewrite Hm.
  assert (E : CloseWithError (next_wenv ws) (roleError (server s))
                (set_reader b s) =
              set_state stateClosing
                (emit (Flush None)
                   (emit (BufWrite cb)
                      (set_closeError
                         (Some (ECloseError (roleError (server s))))
                         (set_reader b s))))).
  { apply CloseWithError_ok; [exact Hs | exact Hb | exact Hf]. }
  destruct (server s) eqn:Srv; cbn [negb andb];
    unfold roleError in E; unfold CloseProtocolError;
    rewrite E; cbn; rewrite <- app_assoc; repeat split; reflexivity.
Qed.

Lemma read_role_violation_witness :
  exists cb,
    trace (read 1 [] (newSocket true (mkReader [129; 2; 104; 105] 4096 []))) =
      [] ++ [BufWrite cb; Flush None] /\
    state (read 1 [] (newSocket true (mkReader [129; 2; 104; 105] 4096 []))) =
      stateClosing.
Proof.
  destruct (read_role_violation 0 []
              (newSocket true (mkReader [129; 2; 104; 105] 4096 []))
              (mkFrame true 1 false 2 [] [104; 105])
              (mkReader [] 4096 []) eq_refl)
    as [cb (_ & H2 & H3 & _)].
  - discriminate.
  - reflexivity.
  - reflexivity.
  - exists cb. split; [exact H2 | exact H3].
Defined.

(** X14: a Ping is answered by the default handler with a Pong of the same
    payload: when no PingHandler is set and the flush succeeds, the read loop
    hands to the transport one frame that the peer decodes as a final Pong
    with the payload of the Ping (masked exactly when this end is a client),
    leaves the state as it was, and goes on reading. *)
Theorem read_default_pong fuel ws s f b :
  newFrame (reader s) = (Ok f, b) ->
  state s <> stateClosed ->
  masked f = server s ->
  opcode f = OpcodePing ->
  PingHandler s = false ->
  flushErr (next_wenv ws) = None ->
  exists pb,
    read (S fuel) ws s =
      read fuel (tl ws)
           (emit (Flush None) (emit (BufWrite pb) (set_reader b s))) /\
    forall rest sz src,
      newFrame (mkReader (pb ++ rest) sz src) =
      (Ok (mkFrame true OpcodePong (negb (server s)) (len (payload f))
                   (if server s then [] else key_of (next_wenv ws))
                   (payload f)),
       mkReader rest sz src).
Proof.
  intros N Hs Hm Ho Hp Hf.
  destruct (newFrame_ok _ _ _ N) as (_ & L1 & L2 & _).
  assert (Hl : len (payload f) <= maxPayload)
    by (unfold maxPayload; change (2 ^ 63 - 1) with 9223372036854775807 in L1;
        lia).
  destruct (outFrame_encodes (next_wenv ws) OpcodePong (payload f) s eq_refl Hl)
    as [pb [Hb Hd]].
  exists pb. split.
  - rewrite (read_unfold fuel ws s _ _ N Hs). cbn zeta.
    cbn [server set_reader PingHandler]. rewrite Hm, Ho, Hp.
    destruct (server s); cbn [negb andb];
      change ((OpcodePing =? OpcodeText) || (OpcodePing =? OpcodeBinary))
        with false;
      change (OpcodePing =? OpcodePing) with true; cbn iota;
      unfold callPingHandler, defaultPingHandler;
      cbn [PingHandler set_reader]; rewrite ?Hp;
      rewrite (Write_ok (next_wenv ws) OpcodePong (payload f)
                 (set_reader b s) pb Hs Hb Hf);
      reflexivity.
  - intros rest sz src. rewrite <- Hd. now apply decode_buffered.
Qed.

Lemma read_default_pong_witness :
  exists pb,
    read 1 [] (newSocket false (mkReader [137; 1; 7] 4096 [])) =
      read 0 []
        (emit (Flush None)
           (emit (BufWrite pb)
              (set_reader (mkReader [] 4096 [])
                 (newSocket false (mkReader [137; 1; 7] 4096 []))))) /\
    forall rest sz src,
      newFrame (mkReader (pb ++ rest) sz src) =
      (Ok (mkFrame true OpcodePong true 1 [0; 0; 0; 0] [7]),
       mkReader rest sz src).
Proof.
  apply (read_default_pong 0 []
           (newSocket false (mkReader [137; 1; 7] 4096 []))
           (mkFrame true 9 false 1 [] [7]) (mkReader [] 4096 []));
    try reflexivity.
  discriminate.
Defined.




(** X16: [CloseWithError] with a recognised code starts the closing
    handshake and nothing more: on a socket that is not Closed, when the
    flush succeeds, it records the CloseError, writes one Close frame, leaves
    the socket Closing and does not close the transport; the peer decodes
    the frame as a Close frame whose payload [NewCloseError] reads back as
    the same code and reason.  [Close] is the case {1000, "normal
    closure"}. *)
Theorem CloseWithError_read_back w e s :
  closeErrorExist (Code e) = true ->
  state s <> stateClosed ->
  flushErr w = None ->
  2 + len (bytes_of_string (Reason e)) <= maxPayload ->
  exists cb,
    trace (CloseWithError w e s) = trace s ++ [BufWrite cb; Flush None] /\
    state (CloseWithError w e s) = stateClosing /\
    closeError (CloseWithError w e s) = Some (ECloseError e) /\
    forall rest sz src,
      exists f,
        newFrame (mkReader (cb ++ rest) sz src) = (Ok f, mkReader rest sz src) /\
        opcode f = OpcodeClose /\
        NewCloseError (payload f) = (e, None).
Proof.
  intros He Hs Hf Hl.
  assert (Eb : fst (CloseError_ToBytes e) =
               toBytesCode e ++ bytes_of_string (Reason e)).
  { unfold CloseError_ToBytes. rewrite He. reflexivity. }
  assert (Hp : len (fst (CloseError_ToBytes e)) <= maxPayload).
  { rewrite Eb, len_app. change (len (toBytesCode e)) with 2. exact Hl. }
  destruct (outFrame_encodes w OpcodeClose _ s eq_refl Hp) as [cb [Hb Hd]].
  exists cb. rewrite (CloseWithError_ok w e s cb Hs Hb Hf). cbn.
  rewrite <- app_assoc. repeat split.
  intros rest sz src. eexists. split; [apply decode_buffered; exact Hb |].
  rewrite Hd. cbn [opcode payload]. split; [reflexivity |].
  rewrite Eb. unfold toBytesCode.
  rewrite (NewCloseError_code_bytes _ _ He), string_of_bytes_of_string.
  now destruct e.
Qed.

Lemma CloseWithError_read_back_witness :
  exists cb,
    trace (Close quiet (newSocket true (NewReader []))) =
      [] ++ [BufWrite cb; Flush None] /\
    state (Close quiet (newSocket true (NewReader []))) = stateClosing.
Proof.
  destruct (CloseWithError_read_back quiet
              (mkCloseError CloseNormalClosure "normal closure")
              (newSocket true (NewReader [])) eq_refl)
    as [cb (H1 & H2 & _)].
  - discriminate.
  - reflexivity.
  - cbn. unfold maxPayload. lia.
  - exists cb. split; [exact H1 | exact H2].
Defined.

(** ** Utilities of the handshake *)

Lemma wrap8_range x : 0 <= wrap8 x < 256.
Proof. unfold wrap8. apply Z.mod_pos_bound. lia. Qed.

Lemma randomBytes_from_facts draw n : forall l,
  List.length (randomBytes_from draw l n) = (4 * n)%nat /\
  Forall is_byte (randomBytes_from draw l n).
Proof.
  induction n as [| n IH]; intros l; cbn [randomBytes_from].
  - split; [reflexivity | constructor].
  - destruct (IH (S l)) as [H1 H2]. split.
    + rewrite length_app, H1. cbn. lia.
    + apply Forall_app. split; [| exact H2].
      unfold PutUint32. repeat constructor; apply wrap8_range.
Qed.

(** X17: [randomByteSlice(i)] returns 4 bytes for each of its [i] turns,
    each within 0..255, and nothing when [i] is not positive; the
    16 bytes of a challenge key are [randomByteSlice(4)]. *)
Theorem randomByteSlice_length (draw : nat -> Z) (i : Z) :
  len (randomByteSlice draw i) = 4 * Z.max 0 i /\
  Forall is_byte (randomByteSlice draw i) /\
  len (randomByteSlice draw 4) = 16.
Proof.
  unfold randomByteSlice, len.
  destruct (randomBytes_from_facts draw (Z.to_nat i) 0) as [H1 H2].
  destruct (randomBytes_from_facts draw (Z.to_nat 4) 0) as [H3 _].
  rewrite H1, H3. repeat split; [lia | exact H2].
Qed.

Lemma stringExists_from_range (l : list string) (k : string) : forall i,
  0 <= i ->
  stringExists_from i l k = -1 \/
  i <= stringExists_from i l k < i + len l.
Proof.
  induction l as [| v l IH]; intros i Hi; cbn [stringExists_from].
  - now left.
  - destruct (String.eqb k v).
    + right. unfold len. cbn [List.length]. lia.
    + destruct (IH (i + 1) ltac:(lia)) as [H | H]; [now left | right].
      unfold len in *. cbn [List.length]. lia.
Qed.

Lemma stringExists_from_none (l : list string) (k : string) : forall i,
  0 <= i -> (stringExists_from i l k = -1 <-> ~ In k l).
Proof.
  induction l as [| v l IH]; intros i Hi; cbn [stringExists_from In].
  - tauto.
  - destruct (String.eqb k v) eqn:E.
    + apply String.eqb_eq in E. split; [lia | intros F; elim F; auto].
    + apply String.eqb_neq in E. rewrite (IH (i + 1)) by lia.
      split; [intros F [G | G]; [congruence | tauto] | tauto].
Qed.

Lemma stringExists_from_found (l : list string) (k : string) : forall i,
  0 <= i -> stringExists_from i l k <> -1 ->
  nth (Z.to_nat (stringExists_from i l k - i)) l "" = k /\
  forall j, (j < Z.to_nat (stringExists_from i l k - i))%nat ->
            nth j l "" <> k.
Proof.
  induction l as [| v l IH]; intros i Hi; cbn [stringExists_from].
  - intros F. now elim F.
  - destruct (String.eqb k v) eqn:E.
    + apply String.eqb_eq in E. subst v. intros _. rewrite Z.sub_diag.
      split; [reflexivity | intros j Hj; cbn in Hj; lia].
    + apply String.eqb_neq in E. intros H.
      destruct (IH (i + 1) ltac:(lia) H) as [C2 C3].
      destruct (stringExists_from_range l k (i + 1) ltac:(lia)) as [R | R];
        [contradiction |].
      replace (Z.to_nat (stringExists_from (i + 1) l k - i))
        with (S (Z.to_nat (stringExists_from (i + 1) l k - (i + 1))))
        by lia.
      split; [exact C2 |].
      intros j Hj. destruct j as [| j]; cbn [nth]; [congruence |].
      apply C3. lia.
Qed.

(** X18: [stringExists] returns -1 exactly when the value is not in the
    slice; otherwise it returns the position of its first occurrence. *)
Theorem stringExists_first (l : list string) (k : string) :
  (stringExists l k = -1 <-> ~ In k l) /\
  (stringExists l k <> -1 ->
   0 <= stringExists l k < len l /\
   nth (Z.to_nat (stringExists l k)) l "" = k /\
   forall j, (j < Z.to_nat (stringExists l k))%nat -> nth j l "" <> k).
Proof.
  unfold stringExists. split.
  - apply stringExists_from_none. lia.
  - intros H.
    destruct (stringExists_from_found l k 0 ltac:(lia) H) as [C2 C3].
    destruct (stringExists_from_range l k 0 ltac:(lia)) as [R | R];
      [contradiction |].
    rewrite Z.sub_0_r in *. repeat split; try lia; assumption.
Qed.

Lemma stringExists_first_witness :
  nth (Z.to_nat (stringExists ["one"; "two"; "three"] "two"))
      ["one"; "two"; "three"] "" = "two".
Proof.
  apply (proj2 (stringExists_first ["one"; "two"; "three"] "two")).
  discriminate.
Defined.

(** ** The client's request *)

Lemma append_assoc (a b c : string) : ((a ++ b) ++ c = a ++ (b ++ c))%string.
Proof. induction a as [| x a IH]; cbn; [reflexivity | now rewrite IH]. Qed.

Lemma append_nil_r (a : string) : (a ++ "")%string = a.
Proof. induction a as [| x a IH]; cbn; [reflexivity | now rewrite IH]. Qed.

Lemma has_comma_app (a b : string) :
  has_comma (a ++ b) = has_comma a || has_comma b.
Proof.
  induction a as [| x a IH]; cbn; [reflexivity |].
  now rewrite IH, orb_assoc.
Qed.

Lemma split_from_no_comma (x : string) : forall cur s,
  has_comma x = false ->
  split_from cur (x ++ s) = split_from (cur ++ x) s.
Proof.
  induction x as [| c x IH]; intros cur s H; cbn [append].
  - now rewrite append_nil_r.
  - cbn [has_comma] in H. apply orb_false_iff in H. destruct H as [H1 H2].
    cbn [split_from]. rewrite H1, (IH _ _ H2), append_assoc. reflexivity.
Qed.

Lemma Split_Join (l : list string) : forall y p,
  Forall clean (y :: l) -> has_comma p = false ->
  Split (p ++ Join (y :: l) ", ") =
  (p ++ y)%string :: map (fun z => (" " ++ z)%string) l.
Proof.
  induction l as [| z l IH]; intros y p Hc Hp.
  - cbn [Join map]. unfold Split.
    rewrite <- (append_nil_r (p ++ y)) at 1.
    rewrite split_from_no_comma.
    + reflexivity.
    + rewrite has_comma_app, Hp. inversion Hc as [| ? ? [H _] _]. exact H.
  - inversion Hc as [| ? ? [Hy _] Hc']; subst.
    change (Join (y :: z :: l) ", ")
      with (y ++ ", " ++ Join (z :: l) ", ")%string.
    unfold Split. rewrite <- append_assoc. rewrite split_from_no_comma
      by (rewrite has_comma_app, Hp, Hy; reflexivity).
    cbn [append split_from]. change (Ascii.eqb "," ",") with true. cbn iota.
    cbn [map]. f_equal.
    apply (IH z " " Hc'). reflexivity.
Qed.

(** X19: the subprotocols a client advertises reach the server as they
    are: for a non-empty list of names without commas and without spaces
    at their ends, splitting the header value that [createRequest] builds
    ([strings.Join] with ", ") with [headerToSlice] gives the list back.
    For the empty list the header value is empty and [headerToSlice]
    returns one empty name. *)
Theorem headerToSlice_Join (l : list string) :
  (l <> [] -> Forall clean l -> headerToSlice (Join l ", ") = l) /\
  headerToSlice (Join [] ", ") = [""%string].
Proof.
  split; [| reflexivity].
  intros Hn Hc. destruct l as [| y l]; [congruence |].
  unfold headerToSlice.
  change (Join (y :: l) ", ") with ("" ++ Join (y :: l) ", ")%string.
  rewrite (Split_Join l y "" Hc eq_refl). cbn [map append].
  inversion Hc as [| ? ? [_ Hy] Hc']; subst. rewrite Hy. f_equal.
  clear Hy Hc Hn. induction l as [| z l IH]; cbn [map]; [reflexivity |].
  inversion Hc' as [| ? ? [_ Hz] Hc'']; subst.
  change (Trim (String " " z)) with (Trim z). rewrite Hz. f_equal.
  now apply IH.
Qed.

Lemma headerToSlice_Join_witness :
  headerToSlice (Join ["client"; "v1"]%string ", ") = ["client"; "v1"]%string.
Proof.
  apply (proj1 (headerToSlice_Join ["client"; "v1"]%string)).
  - discriminate.
  - repeat constructor.
Defined.

Lemma eqb_length (a b : string) :
  String.eqb a b = true -> String.length a = String.length b.
Proof. intros H. apply String.eqb_eq in H. now subst. Qed.

Lemma length_append (a b : string) :
  String.length (a ++ b) = (String.length a + String.length b)%nat.
Proof. induction a as [| x a IH]; cbn; [reflexivity | now rewrite IH]. Qed.

Lemma trimSuffix_app (suf h : string) : trimSuffix suf (h ++ suf) = h.
Proof.
  induction h as [| c h IH].
  - cbn [append]. destruct suf; cbn; [reflexivity |].
    now rewrite Ascii.eqb_refl, String.eqb_refl.
  - cbn [append]. cbn [trimSuffix].
    destruct (String.eqb (String c (h ++ suf)) suf) eqn:E.
    + apply eqb_length in E. cbn [String.length] in E.
      rewrite length_append in E. lia.
    + now rewrite IH.
Qed.

Lemma lookup_assoc_set (h : Header) (k v k' : string) :
  lookup k' (assoc_set k v h) = if String.eqb k' k then v else lookup k' h.
Proof.
  induction h as [| [k0 v0] h IH]; cbn [assoc_set lookup].
  - reflexivity.
  - destruct (String.eqb k k0) eqn:E; cbn [lookup].
    + apply String.eqb_eq in E. subst k0. now destruct (String.eqb k' k).
    + rewrite IH. destruct (String.eqb k' k0) eqn:E2; [| reflexivity].
      apply String.eqb_eq in E2. subst k0.
      rewrite String.eqb_sym, E. reflexivity.
Qed.

(** [Get] after [Set]: the value set when both names have the same
    canonical form, the earlier value otherwise. *)
Lemma Header_Get_Set (h : Header) (k v k' : string) :
  Header_Get (Header_Set h k v) k' =
  if String.eqb (CanonicalHeaderKey k') (CanonicalHeaderKey k) then v
  else Header_Get h k'.
Proof. unfold Header_Get, Header_Set. apply lookup_assoc_set. Qed.

Lemma schemeValid_cases m :
  schemeValid m = true -> m = "ws"%string \/ m = "wss"%string.
Proof.
  unfold schemeValid. intros H. apply orb_true_iff in H.
  destruct H as [H | H]; apply String.eqb_eq in H; auto.
Qed.

(** X20: a URL string that [parseURLScheme] accepts leaves it with the
    scheme ws or wss: a string with no scheme gets "ws://" in front, a
    string with the scheme ws or wss is kept, and a string with any other
    scheme is refused with "invalid scheme: " and that scheme. *)
Theorem parseURLScheme_scheme (u : string) :
  match parseURLScheme u with
  | Ok u' =>
      (schemeSubmatch u' = Some "ws"%string \/
       schemeSubmatch u' = Some "wss"%string) /\
      (schemeSubmatch u = None -> u' = ("ws://" ++ u)%string) /\
      (schemeSubmatch u <> None -> u' = u)
  | Err e =>
      exists m, schemeSubmatch u = Some m /\ schemeValid m = false /\
                e = ErrText ("invalid scheme: " ++ m)%string
  end.
Proof.
  unfold parseURLScheme. destruct (schemeSubmatch u) as [m |] eqn:E.
  - destruct (schemeValid m) eqn:V; cbn [negb].
    + split; [| split; [discriminate | reflexivity]].
      rewrite E. destruct (schemeValid_cases m V); subst; auto.
    + exists m. auto.
  - split; [left; destruct u; reflexivity |]. split; [reflexivity |].
    intros F. now elim F.
Qed.

Section ClientRequest.

Variable EncodeToString : list byte -> string.

Lemma parseURLHost_scheme u u' :
  parseURLHost u = Ok u' ->
  schemeValid (Scheme u) = true /\ Scheme u' = Scheme u.
Proof.
  unfold parseURLHost. destruct (schemeValid (Scheme u)); cbn [negb];
    [| discriminate].
  destruct (portRegexpMatches (Host u)).
  { intros H; inversion H; auto. }
  destruct (String.eqb (Scheme u) "ws").
  { intros H; inversion H; auto. }
  destruct (String.eqb (Scheme u) "wss"); intros H; inversion H; auto.
Qed.

(** X21: the default port is for dialling only: when the user's host has
    no port, [parseURLHost] appends ":22" (ws) or ":443" (wss) and
    [createRequest] takes it off again for the Host header, which is the
    host as the user gave it, while the Host field of the request keeps the
    port. *)
Theorem createRequest_Host hdr protos draw u u' :
  parseURLHost u = Ok u' ->
  portRegexpMatches (Host u) = false ->
  Header_Get (hHeader (createRequest EncodeToString hdr protos draw u')) "Host" = Host u /\
  hHost (createRequest EncodeToString hdr protos draw u') =
    (Host u ++ (if String.eqb (Scheme u) "ws" then ":22" else ":443"))%string.
Proof.
  intros H Hp. destruct (parseURLHost_scheme u u' H) as [Hv _].
  rewrite (parseURLHost_appends u Hv Hp) in H. inversion H; subst u'. clear H.
  unfold createRequest. cbn [Scheme Host hHeader hHost].
  split; [| reflexivity].
  rewrite !Header_Get_Set. cbn [CanonicalHeaderKey].
  change (String.eqb (canonical_from true "Host")
            (canonical_from true "Sec-WebSocket-Protocol")) with false.
  change (String.eqb (canonical_from true "Host")
            (canonical_from true "Sec-WebSocket-Key")) with false.
  change (String.eqb (canonical_from true "Host")
            (canonical_from true "Sec-WebSocket-Version")) with false.
  change (String.eqb (canonical_from true "Host")
            (canonical_from true "Connection")) with false.
  change (String.eqb (canonical_from true "Host")
            (canonical_from true "Upgrade")) with false.
  change (String.eqb (canonical_from true "Host")
            (canonical_from true "Host")) with true.
  cbn iota.
  destruct (schemeValid_cases _ Hv) as [E | E]; rewrite E.
  - change (String.eqb "ws" "ws") with true. cbn iota.
    apply trimSuffix_app.
  - change (String.eqb "wss" "ws") with false.
    change (String.eqb "wss" "wss") with true. cbn iota.
    apply trimSuffix_app.
Qed.

End ClientRequest.

Lemma createRequest_Host_witness :
  Header_Get
    (hHeader (createRequest string_of_bytes [] [] (fun _ => 0)
                (mkURL "ws" "localhost:22")))
    "Host" = "localhost"%string.
Proof.
  apply (proj1 (createRequest_Host string_of_bytes [] [] (fun _ => 0)
                  (mkURL "ws" "localhost") (mkURL "ws" "localhost:22")
                  eq_refl eq_refl)).
Defined.

Lemma bytes_of_string_of_bytes (x : list byte) :
  Forall is_byte x -> bytes_of_string (string_of_bytes x) = x.
Proof.
  induction 1 as [| a x Ha _ IH]; [reflexivity |].
  cbn [string_of_bytes bytes_of_string map]. rewrite IH. f_equal.
  unfold is_byte in Ha.
  rewrite Ascii.nat_ascii_embedding; [lia |].
  change 256%nat with (Z.to_nat 256). lia.
Qed.

Lemma PutUint32_bytes v : Forall is_byte (PutUint32 v).
Proof.
  unfold PutUint32. repeat constructor; apply wrap8_byte.
Qed.

Lemma randomBytes_from_bytes draw n l :
  Forall is_byte (randomBytes_from draw l n).
Proof.
  revert l. induction n as [| n IH]; intros l; cbn [randomBytes_from].
  - constructor.
  - apply Forall_app. split; [apply PutUint32_bytes | apply IH].
Qed.

Section ClientServer.

Variable sha1_base64 : string -> string.
Variable DecodeString : string -> option (list byte).
Variable EncodeToString : list byte -> string.

Lemma createRequest_headers hdr protos draw l :
  let r := createRequest EncodeToString hdr protos draw l in
  Header_Get (hHeader r) "Upgrade" = "websocket"%string /\
  Header_Get (hHeader r) "Connection" = "upgrade"%string /\
  Header_Get (hHeader r) "Sec-WebSocket-Version" = "13"%string /\
  Header_Get (hHeader r) "Sec-WebSocket-Key" =
    makeChallengeKey EncodeToString draw /\
  Header_Get (hHeader r) "Sec-WebSocket-Protocol" = Join protos ", " /\
  Header_Get (hHeader r) "Origin" = Header_Get hdr "Origin".
Proof.
  cbv zeta. unfold createRequest. cbn [hHeader].
  repeat split; rewrite !Header_Get_Set; reflexivity.
Qed.

(** X22: the client and the server of the library agree: the request
    [createRequest] builds passes every check of the server, and [Upgrade]
    answers it with the 101 response and a server socket, when the dialer's
    headers carry no Origin, the server has no CheckOrigin of its own and
    the connection can be hijacked.  The base64 decoder is only assumed to
    invert the encoder. *)
Theorem createRequest_upgrades hdr protos draw l q b :
  (forall x, Forall is_byte x -> DecodeString (EncodeToString x) = Some x) ->
  Header_Get hdr "Origin" = ""%string ->
  CheckOrigin q = None ->
  let r := createRequest EncodeToString hdr protos draw l in
  validateRequest DecodeString r = None /\
  Upgrade sha1_base64 DecodeString q r (Hijacked b) =
    Switched (upgradeResponse sha1_base64 q r) (newSocket true b).
Proof.
  intros Hdec Ho Hq r.
  destruct (createRequest_headers hdr protos draw l)
    as (Hu & Hc & Hv & Hk & _ & Hor). fold r in Hu, Hc, Hv, Hk, Hor.
  assert (Hval : validateRequest DecodeString r = None).
  { unfold validateRequest, requestValidations. cbn [first_request_error].
    unfold validateRequestVersion, validateRequestMethod,
      validateRequestUpgradeHeader, validateRequestConnectionHeader,
      validateRequestSecWebsocketKeyHeader.
    rewrite Hu, Hc, Hk.
    change (ProtoAtLeast r 1 1) with true.
    change (Method r) with "GET"%string.
    cbn [negb]. 
    change (negb (String.eqb "GET" "GET")) with false.
    change (negb (String.eqb (ToLower "websocket") "websocket")) with false.
    change (negb (String.eqb (ToLower "upgrade") "upgrade")) with false.
    cbv iota.
    unfold makeChallengeKey, randomByteSlice.
    rewrite Hdec by apply randomBytes_from_bytes.
    change (Z.to_nat 4) with 4%nat. reflexivity. }
  split; [exact Hval |].
  unfold Upgrade, handleOrigin, validateWSVersionHeader, checkOrigin.
  rewrite Hq, Hor, Ho, Hv, Hval. reflexivity.
Qed.

End ClientServer.

Lemma createRequest_upgrades_witness :
  Upgrade (fun s => s) (fun s => Some (bytes_of_string s))
    (mkUpgradeRequest None "")
    (createRequest string_of_bytes [] [] (fun _ => 0) (mkURL "ws" "h:22"))
    (Hijacked (NewReader [])) =
  Switched
    (upgradeResponse (fun s => s) (mkUpgradeRequest None "")
       (createRequest string_of_bytes [] [] (fun _ => 0) (mkURL "ws" "h:22")))
    (newSocket true (NewReader [])).
Proof.
  apply (proj2 (createRequest_upgrades (fun s => s)
                  (fun s => Some (bytes_of_string s)) string_of_bytes
                  [] [] (fun _ => 0) (mkURL "ws" "h:22")
                  (mkUpgradeRequest None "") (NewReader [])
                  (fun x H => f_equal Some (bytes_of_string_of_bytes x H))
                  eq_refl eq_refl)).
Defined.

Lemma prefix_empty (s : string) : String.prefix "" s = true.
Proof. now destruct s. Qed.

(** X23: [checkOrigin] does not look at the scheme of the Origin header: an
    origin "http://h" or "https://h" is accepted exactly when h is empty or
    is the Host of the request. *)
Theorem checkOrigin_ignores_scheme (r : httpRequest) (h : string) :
  Header_Get (hHeader r) "Origin" = ("http://" ++ h)%string \/
  Header_Get (hHeader r) "Origin" = ("https://" ++ h)%string ->
  checkOrigin r = (String.eqb h "" || String.eqb h (hHost r))%bool.
Proof.
  unfold checkOrigin. intros [E | E]; rewrite E.
  - assert (P : String.prefix "http://" ("http://" ++ h) = true)
      by (destruct h; reflexivity).
    rewrite P. unfold removeFirst at 1.
    destruct h; reflexivity.
  - assert (P : String.prefix "http://" ("https://" ++ h) = false)
      by reflexivity.
    assert (Q : String.prefix "https://" ("https://" ++ h) = true)
      by (destruct h; reflexivity).
    rewrite P, Q. destruct h; reflexivity.
Qed.

Lemma checkOrigin_ignores_scheme_witness :
  checkOrigin (mkHttpRequest "GET" 1 1 [("Origin", "https://a.b")] "a.b") =
  (String.eqb "a.b" "" || String.eqb "a.b" "a.b")%bool.
Proof.
  apply (checkOrigin_ignores_scheme
           (mkHttpRequest "GET" 1 1 [("Origin", "https://a.b")] "a.b") "a.b").
  right. reflexivity.
Defined.

Section UpgradeFacts.

Variable sha1_base64 : string -> string.
Variable DecodeString : string -> option (list byte).

(** X24: the server announces a subprotocol only when the client offered
    it: the 101 response of [upgrade] has the Sec-WebSocket-Protocol line,
    between the version line and the accept line, when the chosen
    SubProtocol is not empty and is among the client's, and has no such
    line otherwise. *)
Theorem upgradeResponse_protocol (q : UpgradeRequest) (r : httpRequest) :
  let head := ("HTTP/1.1 101 Switching Protocols" ++ nl ++
               "Upgrade: websocket" ++ nl ++
               "Connection: upgrade" ++ nl ++
               "Sec-WebSocket-Version: 13" ++ nl)%string in
  let tail := ("Sec-WebSocket-Accept: " ++
               makeAcceptKey sha1_base64
                 (Header_Get (hHeader r) "Sec-WebSocket-Key") ++
               nl ++ nl)%string in
  (SubProtocol q <> ""%string /\ In (SubProtocol q) (ClientSubProtocols r) ->
   upgradeResponse sha1_base64 q r =
     (head ++ "Sec-WebSocket-Protocol: " ++ SubProtocol q ++ nl ++ tail)%string)
  /\
  (SubProtocol q = ""%string \/ ~ In (SubProtocol q) (ClientSubProtocols r) ->
   upgradeResponse sha1_base64 q r = (head ++ tail)%string).
Proof.
  cbv zeta. unfold upgradeResponse.
  destruct (stringExists_from_none (ClientSubProtocols r) (SubProtocol q) 0
              ltac:(lia)) as [N1 N2].
  fold (stringExists (ClientSubProtocols r) (SubProtocol q)) in N1, N2.
  split.
  - intros [Hne Hin].
    apply String.eqb_neq in Hne. rewrite Hne.
    destruct (stringExists (ClientSubProtocols r) (SubProtocol q) =? -1) eqn:E.
    { apply Z.eqb_eq in E. elim (N1 E). exact Hin. }
    cbn [negb andb]. rewrite <- !append_assoc. reflexivity.
  - intros [He | Hn].
    + rewrite He. cbn [negb andb]. change (String.eqb "" "") with true.
      cbn [negb andb]. rewrite <- !append_assoc. reflexivity.
    + rewrite (N2 Hn). rewrite Z.eqb_refl, andb_false_r.
      rewrite <- !append_assoc. reflexivity.
Qed.

(** X25: [Upgrade] switches protocols only for a request that passed every
    check: the origin check, version 13, HTTP 1.1 or higher, method GET,
    the Upgrade and Connection headers (in any letter case) and a key that
    decodes to 16 bytes; the socket is then a server socket on the hijacked
    connection, and the text written is the 101 response. *)
Theorem Upgrade_switched q r w resp s :
  Upgrade sha1_base64 DecodeString q r w = Switched resp s ->
  handleOrigin q r = None /\
  Header_Get (hHeader r) "Sec-WebSocket-Version" = "13"%string /\
  ProtoAtLeast r 1 1 = true /\
  Method r = "GET"%string /\
  ToLower (Header_Get (hHeader r) "Upgrade") = "websocket"%string /\
  ToLower (Header_Get (hHeader r) "Connection") = "upgrade"%string /\
  (exists d, DecodeString (Header_Get (hHeader r) "Sec-WebSocket-Key") = Some d
             /\ len d = 16) /\
  (exists b, w = Hijacked b /\ s = newSocket true b) /\
  resp = upgradeResponse sha1_base64 q r.
Proof.
  unfold Upgrade.
  destruct (handleOrigin q r) eqn:Ho; [discriminate |].
  unfold validateWSVersionHeader.
  destruct (String.eqb (Header_Get (hHeader r) "Sec-WebSocket-Version")
              wsVersion) eqn:Ev; cbn [negb]; [| discriminate].
  apply String.eqb_eq in Ev.
  unfold validateRequest, requestValidations. cbn [first_request_error].
  unfold validateRequestVersion, validateRequestMethod,
    validateRequestUpgradeHeader, validateRequestConnectionHeader,
    validateRequestSecWebsocketKeyHeader.
  destruct (ProtoAtLeast r 1 1) eqn:Ep; cbn [negb]; [| discriminate].
  destruct (String.eqb (Method r) "GET") eqn:Em; cbn [negb]; [| discriminate].
  destruct (String.eqb (ToLower (Header_Get (hHeader r) "Upgrade"))
              "websocket") eqn:Eu; cbn [negb]; [| discriminate].
  destruct (String.eqb (ToLower (Header_Get (hHeader r) "Connection"))
              "upgrade") eqn:Ec; cbn [negb]; [| discriminate].
  destruct (DecodeString (Header_Get (hHeader r) "Sec-WebSocket-Key"))
    as [d |] eqn:Ed; [| discriminate].
  destruct (len d =? 16) eqn:El; cbn [negb]; [| discriminate].
  apply String.eqb_eq in Em, Eu, Ec. apply Z.eqb_eq in El.
  destruct w as [| e | b]; cbn [upgrade]; try discriminate.
  intros H. inversion H; subst.
  repeat split; auto; eauto.
Qed.

End UpgradeFacts.

Lemma upgradeResponse_protocol_witness :
  upgradeResponse (fun s => s) (mkUpgradeRequest None "chat")
    (mkHttpRequest "GET" 1 1 [("Sec-Websocket-Protocol", "v1, chat")] "h") =
  ("HTTP/1.1 101 Switching Protocols" ++ nl ++
   "Upgrade: websocket" ++ nl ++
   "Connection: upgrade" ++ nl ++
   "Sec-WebSocket-Version: 13" ++ nl ++
   "Sec-WebSocket-Protocol: " ++ "chat" ++ nl ++
   "Sec-WebSocket-Accept: " ++
   makeAcceptKey (fun s => s) "" ++ nl ++ nl)%string.
Proof.
  apply (proj1 (upgradeResponse_protocol (fun s => s)
                  (mkUpgradeRequest None "chat")
                  (mkHttpRequest "GET" 1 1
                     [("Sec-Websocket-Protocol", "v1, chat")] "h"))).
  split; [discriminate | right; left; reflexivity].
Defined.

Lemma Upgrade_switched_witness :
  Header_Get
    (hHeader (createRequest string_of_bytes [] [] (fun _ => 0)
                (mkURL "ws" "h:22")))
    "Sec-WebSocket-Version" = "13"%string.
Proof.
  apply (Upgrade_switched (fun s => s) (fun s => Some (bytes_of_string s))
           (mkUpgradeRequest None "")
           (createRequest string_of_bytes [] [] (fun _ => 0)
              (mkURL "ws" "h:22"))
           (Hijacked (NewReader []))
           (upgradeResponse (fun s => s) (mkUpgradeRequest None "")
              (createRequest string_of_bytes [] [] (fun _ => 0)
                 (mkURL "ws" "h:22")))
           (newSocket true (NewReader []))).
  reflexivity.
Defined.
